(** * git-puller: a shallow embedding of [git-puller.go]

    The program walks a directory tree, starts one goroutine per directory
    that holds a [.git] directory, and each goroutine probes the remote,
    appends a row to the shared summary and records the outcome of
    [git pull] in that row.

    Layout of this file:
    - [GoStrings]   the functions of Go's [strings] and [unicode] packages
                    that [getGitStatus] calls;
    - [Prober]      [getGitStatus];
    - [Aggregator]  the summary slice and [updateStatus];
    - [FilePath]    [filepath.Clean], [Join], [Dir] and [filepath.Walk];
    - [Walker]      [visit] and the traversal started by [run];
    - [Syncer]      [pullRepository] as a straight-line program of atomic
                    actions, and the interleaving semantics of the goroutines;
    - [Cli]         [NewGitPullCommand], [setupLogger], [run] and [main]. *)

From Stdlib Require Import Ascii String.
From stdpp Require Import base numbers list relations.

Local Open Scope N_scope.

(** ** Go strings *)

(** A Go string is modelled by the sequence of code points that ranging over
    it yields; [rune] is Go's name for a code point. *)
Definition rune := N.
Definition gostring := list rune.

(** ASCII literals. *)
Definition str (s : string) : gostring :=
  map N_of_ascii (list_ascii_of_string s).

Module GoStrings.

(** [unicode.IsSpace]: the Latin-1 switch, then the White_Space table. *)
Definition IsSpace (r : rune) : bool :=
  if r <=? 0xFF then
    (r =? 0x09) || (r =? 0x0A) || (r =? 0x0B) || (r =? 0x0C) || (r =? 0x0D)
    || (r =? 0x20) || (r =? 0x85) || (r =? 0xA0)
  else
    (r =? 0x1680) || ((0x2000 <=? r) && (r <=? 0x200A))
    || (r =? 0x2028) || (r =? 0x2029) || (r =? 0x202F) || (r =? 0x205F)
    || (r =? 0x3000).

(** [strings.Split s sep] for a separator of one code point: the pieces
    between the occurrences of [sep]; never empty. *)
Fixpoint Split (s : gostring) (sep : rune) : list gostring :=
  match s with
  | [] => [[]]
  | c :: s' =>
      if c =? sep then [] :: Split s' sep
      else match Split s' sep with
           | [] => [[c]]
           | piece :: pieces => (c :: piece) :: pieces
           end
  end.

Fixpoint TrimLeftSpace (s : gostring) : gostring :=
  match s with
  | [] => []
  | c :: s' => if IsSpace c then TrimLeftSpace s' else s
  end.

Definition TrimRightSpace (s : gostring) : gostring :=
  reverse (TrimLeftSpace (reverse s)).

(** [strings.TrimSpace]. *)
Definition TrimSpace (s : gostring) : gostring :=
  TrimRightSpace (TrimLeftSpace s).

(** The scan of [strings.FieldsFunc]: [cur] is the field that is open at
    the current position ([[]] when none is, the [start < 0] of the Go
    loop: an open field holds at least one code point). *)
Fixpoint fields_from (cur s : gostring) : list gostring :=
  match s with
  | [] => match cur with [] => [] | _ => [cur] end
  | c :: s' =>
      if IsSpace c then
        match cur with
        | [] => fields_from [] s'
        | _ => cur :: fields_from [] s'
        end
      else fields_from (cur ++ [c]) s'
  end.

(** [strings.Fields]. *)
Definition Fields (s : gostring) : list gostring := fields_from [] s.

End GoStrings.

(** ** Status Prober *)

Module Prober.
Import GoStrings.

(** What [cmd.Output()] hands back: the captured standard output and
    whether [err != nil]. *)
Record cmd_output := CmdOutput { stdout : gostring; failed : bool }.

Definition Unknown : gostring := str "Unknown".
Definition Pending : gostring := str "Pending".
Definition Success : gostring := str "Success".
Definition Failed : gostring := str "Failed".

Definition newline : rune := 0x0A.

(** [getGitStatus], applied to the result of [git -C dir remote -v]. *)
Definition getGitStatus (res : cmd_output) : gostring * gostring :=
  if failed res then ([], Unknown)
  else
    match Split (stdout res) newline with
    | [] => ([], Unknown)
    | line0 :: _ =>
        let remoteLine := TrimSpace line0 in
        let remoteParts := Fields remoteLine in
        if decide (length remoteParts = 3%nat) then
          match remoteParts !! 1%nat with
          | Some remote => (remote, Pending)
          | None => ([], Unknown)
          end
        else ([], Unknown)
    end.

End Prober.

(** ** Result Aggregator *)

Module Aggregator.

(** A row of [g.summary] is the slice [[]string{dir, remote, status}]. *)
Definition row := list gostring.

(** [updateStatus]: the loop over [g.summary], stopping at the first row
    whose [row[0]] is [dir].  [None] is the run-time panic of an index out
    of range ([row[0]] on an empty row, [g.summary[i][2]] on a row of
    fewer than three cells). *)
Fixpoint updateStatus (summary : list row) (dir status : gostring)
  : option (list row) :=
  match summary with
  | [] => Some []
  | r :: rest =>
      match r !! 0%nat with
      | None => None
      | Some cell0 =>
          if decide (cell0 = dir) then
            if decide (2 < length r)%nat
            then Some (<[2%nat := status]> r :: rest)
            else None
          else cons r <$> updateStatus rest dir status
      end
  end.

End Aggregator.

(** ** Paths and the tree walk of [path/filepath] (Unix) *)

Module FilePath.
Import GoStrings.

Definition Separator : rune := 0x2F.
Definition dot : gostring := str ".".
Definition dotdot : gostring := str "..".

(** The elements that [Clean] keeps, in order.  [out] is what has been
    kept so far; a [..] removes the element before it unless that is a
    [..] itself or there is none (then it is kept on a relative path and
    dropped on a rooted one). *)
Fixpoint clean_elems (rooted : bool) (out elems : list gostring)
  : list gostring :=
  match elems with
  | [] => out
  | e :: es =>
      if decide (e = [] ∨ e = dot) then clean_elems rooted out es
      else if decide (e = dotdot) then
        match last out with
        | Some top =>
            if decide (top = dotdot)
            then clean_elems rooted (out ++ [e]) es
            else clean_elems rooted (removelast out) es
        | None =>
            if rooted then clean_elems rooted out es
            else clean_elems rooted (out ++ [e]) es
        end
      else clean_elems rooted (out ++ [e]) es
  end.

Fixpoint join_elems (elems : list gostring) : gostring :=
  match elems with
  | [] => []
  | [e] => e
  | e :: es => e ++ Separator :: join_elems es
  end.

(** [filepath.Clean]. *)
Definition Clean (path : gostring) : gostring :=
  match path with
  | [] => dot
  | c :: _ =>
      let rooted := c =? Separator in
      let body := join_elems (clean_elems rooted [] (Split path Separator)) in
      if rooted then Separator :: body
      else match body with [] => dot | _ => body end
  end.

(** [filepath.Join] of two elements. *)
Definition Join (a b : gostring) : gostring :=
  match a, b with
  | [], [] => []
  | [], _ => Clean b
  | _, _ => Clean (a ++ Separator :: b)
  end.

(** The prefix of [path] up to and including its last separator. *)
Fixpoint through_last_separator (path : gostring) : gostring :=
  match path with
  | [] => []
  | c :: path' =>
      let r := through_last_separator path' in
      if c =? Separator then c :: r
      else match r with [] => [] | _ => c :: r end
  end.

(** [filepath.Dir]. *)
Definition Dir (path : gostring) : gostring :=
  Clean (through_last_separator path).

(** [os.FileInfo], as far as [visit] reads it. *)
Record FileInfo := Info { Name : gostring; IsDir : bool }.

(** Go [error] values that the walk tells apart. *)
Inductive error :=
| SkipDir
| SkipAll
| PathError (op path : gostring).

#[global] Instance error_eq_dec : EqDecision error.
Proof. solve_decision. Defined.

(** A file tree as [Walk] sees it: an entry that [Lstat] fails on, an
    entry that is no directory, or a directory with the entries that
    [readDirNames] lists ([unreadable] when that call fails). *)
#[warnings="-register-all"]
Inductive node :=
| NoStat (name : gostring)
| Regular (name : gostring)
| Directory (name : gostring) (unreadable : bool) (entries : list node).

Definition node_name (n : node) : gostring :=
  match n with
  | NoStat name | Regular name | Directory name _ _ => name
  end.

(** What a call of the walk function leaves: a panic, or the state and
    the returned [error] ([None] is [nil]). *)
Inductive outcome (S : Type) :=
| Panic
| Ret (s : S) (err : option error).
Arguments Panic {S}.
Arguments Ret {S} s err.

Definition WalkFunc (S : Type) :=
  gostring → option FileInfo → option error → S → outcome S.

Section Walk.
Context {S : Type} (walkFn : WalkFunc S).

(** The loop [for _, name := range names] of [walk]. *)
Section Entries.
Variable walk : gostring → node → S → outcome S.
Variable path : gostring.

Fixpoint walk_entries (entries : list node) (s : S) : outcome S :=
  match entries with
  | [] => Ret s None
  | e :: entries' =>
      let filename := Join path (node_name e) in
      match e with
      | NoStat _ =>
          match walkFn filename None
                  (Some (PathError (str "lstat") filename)) s with
          | Panic => Panic
          | Ret s' None | Ret s' (Some SkipDir) => walk_entries entries' s'
          | Ret s' (Some err) => Ret s' (Some err)
          end
      | Regular _ =>
          match walk filename e s with
          | Panic => Panic
          | Ret s' None => walk_entries entries' s'
          | Ret s' (Some err) => Ret s' (Some err)
          end
      | Directory _ _ _ =>
          match walk filename e s with
          | Panic => Panic
          | Ret s' None | Ret s' (Some SkipDir) => walk_entries entries' s'
          | Ret s' (Some err) => Ret s' (Some err)
          end
      end
  end.
End Entries.

(** [walk]. *)
Fixpoint walk (path : gostring) (n : node) (s : S) : outcome S :=
  match n with
  | NoStat _ =>
      walkFn path None (Some (PathError (str "lstat") path)) s
  | Regular name =>
      walkFn path (Some (Info name false)) None s
  | Directory name unreadable entries =>
      let err :=
        if unreadable then Some (PathError (str "open") path) else None in
      match walkFn path (Some (Info name true)) err s with
      | Panic => Panic
      | Ret s1 err1 =>
          if unreadable || bool_decide (err1 ≠ None) then Ret s1 err1
          else walk_entries walk path entries s1
      end
  end.

(** [filepath.Walk]. *)
Definition Walk (root : gostring) (n : node) (s : S) : outcome S :=
  match walk root n s with
  | Panic => Panic
  | Ret s' (Some SkipDir) | Ret s' (Some SkipAll) => Ret s' None
  | Ret s' err => Ret s' err
  end.
End Walk.

End FilePath.

(** ** Tree Walker *)

Module Walker.
Import FilePath.

Definition dotgit : gostring := str ".git".

(** The walker's part of [g]: the arguments of the [go g.pullRepository]
    statements executed so far, oldest first.  Log lines are output only
    and are left out. *)
Definition spawned := list gostring.

(** [visit].  [info.IsDir()] on a nil [info] panics. *)
Definition visit : WalkFunc spawned :=
  λ path info err g,
    match err with
    | Some _ => Ret g None
    | None =>
        match info with
        | None => Panic
        | Some info =>
            if IsDir info && bool_decide (Name info = dotgit) then
              let repoDir := Dir path in
              Ret (g ++ [repoDir]) (Some SkipDir)
            else Ret g None
        end
    end.

End Walker.

(** ** Repository Syncer and the goroutines *)

Module Syncer.
Import Prober Aggregator.

(** The argument of one [go g.pullRepository(dir)] together with what its
    two subprocesses answer: the result of [git -C dir remote -v] and
    whether [git -C dir pull] returns an error (non-zero exit, or the
    command could not be run). *)
Record job := Job { dir : gostring; remote_v : cmd_output; pull_err : bool }.

Inductive command :=
| GitRemoteV (dir : gostring)
| GitPull (dir : gostring).

#[global] Instance command_eq_dec : EqDecision command.
Proof. solve_decision. Defined.

(** The steps of a goroutine that other goroutines can observe: a
    subprocess run, or a critical section of [g.mu]. *)
Inductive action :=
| Exec (c : command)
| Append (r : row)
| Update (dir status : gostring).

(** [pullRepository], for the answers recorded in the job: the probe,
    the locked append, the pull, and the locked [updateStatus] of the
    branch that [err] selects. *)
Definition pullRepository (j : job) : list action :=
  let '(remote, status) := getGitStatus (remote_v j) in
  [ Exec (GitRemoteV (dir j));
    Append [dir j; remote; status];
    Exec (GitPull (dir j));
    Update (dir j) (if pull_err j then Failed else Success) ].

(** A goroutine: its job and how many of its actions it has done. *)
Record goroutine := Go { job_of : job; pc : nat }.

Definition next (t : goroutine) : option action :=
  pullRepository (job_of t) !! pc t.

Definition advance (t : goroutine) : goroutine :=
  Go (job_of t) (S (pc t)).

(** [wg.Done()] has run. *)
Definition returned (t : goroutine) : Prop :=
  (length (pullRepository (job_of t)) ≤ pc t)%nat.

(** The shared part of [g] and the subprocesses run so far. *)
Record shared := Shared { summary : list row; trace : list command }.

Record state := State { mem : shared; threads : list goroutine }.

(** One action on the shared state; [None] is a panic. *)
Definition perform (a : action) (m : shared) : option shared :=
  match a with
  | Exec c => Some (Shared (summary m) (trace m ++ [c]))
  | Append r => Some (Shared (summary m ++ [r]) (trace m))
  | Update d st =>
      s' ← updateStatus (summary m) d st; Some (Shared s' (trace m))
  end.

(** Any goroutine that has not returned takes its next action. *)
Inductive step : state → state → Prop :=
| step_goroutine σ i t a m' :
    threads σ !! i = Some t →
    next t = Some a →
    perform a (mem σ) = Some m' →
    step σ (State m' (<[i := advance t]> (threads σ))).

(** The goroutines of a run, before any of them has moved. *)
Definition init (jobs : list job) : state :=
  State (Shared [] []) ((λ j, Go j 0) <$> jobs).

(** [g.wait()] returns. *)
Definition finished (σ : state) : Prop := Forall returned (threads σ).

(** A scheduler's choice, executed. *)
Inductive fired :=
| Idle
| Crash
| Next (σ : state).

Definition fire (i : nat) (σ : state) : fired :=
  match threads σ !! i with
  | None => Idle
  | Some t =>
      match next t with
      | None => Idle
      | Some a =>
          match perform a (mem σ) with
          | None => Crash
          | Some m' => Next (State m' (<[i := advance t]> (threads σ)))
          end
      end
  end.

Fixpoint run_schedule (sched : list nat) (σ : state) : option state :=
  match sched with
  | [] => Some σ
  | i :: sched' =>
      match fire i σ with
      | Idle => run_schedule sched' σ
      | Crash => None
      | Next σ' => run_schedule sched' σ'
      end
  end.

(** Every goroutine in turn, once. *)
Definition round (σ : state) : list nat := seq 0 (length (threads σ)).

(** The join barrier: whatever the scheduler left undone is done before
    [g.wait()] returns; four rounds end every goroutine. *)
Definition wait (σ : state) : option state :=
  run_schedule (round σ ++ round σ ++ round σ ++ round σ) σ.

(** The row a goroutine has in the summary, by its program counter. *)
Definition initial_row (j : job) : row :=
  [dir j; (getGitStatus (remote_v j)).1; (getGitStatus (remote_v j)).2].

Definition final_status (j : job) : gostring :=
  if pull_err j then Failed else Success.

Definition final_row (j : job) : row :=
  [dir j; (getGitStatus (remote_v j)).1; final_status j].

Definition row_of (t : goroutine) : option row :=
  if decide (pc t < 2)%nat then None
  else if decide (pc t < 4)%nat then Some (initial_row (job_of t))
  else Some (final_row (job_of t)).

(** The subprocesses a goroutine has still to run. *)
Definition commands_of (acts : list action) : list command :=
  omap (λ a, match a with Exec c => Some c | _ => None end) acts.

Definition pending_commands (t : goroutine) : list command :=
  commands_of (drop (pc t) (pullRepository (job_of t))).

(** The subprocesses run so far, followed by those still to come. *)
Definition outstanding (σ : state) : list command :=
  trace (mem σ) ++ concat (pending_commands <$> threads σ).

(** The summary holds, in some order, the rows of the goroutines that
    have appended theirs, and the goroutines are those of [jobs]. *)
Definition consistent (jobs : list job) (σ : state) : Prop :=
  job_of <$> threads σ = jobs
  ∧ summary (mem σ) ≡ₚ omap row_of (threads σ).

(** A goroutine after its turn in a round. *)
Definition tick (t : goroutine) : goroutine :=
  match next t with
  | Some _ => advance t
  | None => t
  end.

End Syncer.

(** ** Command line, [run] and [main] *)

Module Cli.
Import Prober Aggregator FilePath Walker Syncer.

(** The command that [Execute] runs.  The root command has no
    subcommands of its own, but cobra adds its hidden completion command
    to it for the time of a call whose first word that is no flag is
    [__complete] or [__completeNoDesc]; that command takes the other
    words as they are, without parsing flags. *)
Inductive command :=
| Root
| Complete (words : list gostring).

(** What cobra's parsing of [os.Args] yields: the value of [--log-level]
    after [ParseFlags] in [NewGitPullCommand], the command that [Execute]
    runs and, for the root command, whether the flag parsing of [Execute]
    fails, whether help was asked for, and the positional arguments. *)
Record invocation := Invocation {
  logLevel : gostring;
  debug : bool;
  dispatched : command;
  flag_error : bool;
  help : bool;
  args : list gostring
}.

(** What the process does outside itself: the tree that [Lstat] and
    [readDirNames] show at a path, the answers of git for a repository
    directory, and the scheduler's choices. *)
Record world := World {
  tree_at : gostring → node;
  git_remote_v : gostring → cmd_output;
  git_pull_fails : gostring → bool;
  schedule : list nat
}.

Definition job_for (w : world) (d : gostring) : job :=
  Job d (git_remote_v w d) (git_pull_fails w d).

(** What [run] leaves behind: the goroutines it started and the rows that
    [printSummary] renders. *)
Record report := Report { started : list gostring; table : list row }.

Inductive exit :=
| Exit (code : nat) (r : option report)
| Panicked.

(** [run]: walk, wait, print.  The error that [Walk] returns is logged
    only. *)
Definition run (w : world) (args : list gostring) : option report :=
  match args with
  | [] => None
  | dir :: _ =>
      match Walk visit dir (tree_at w dir) [] with
      | Panic => None
      | Ret started _ =>
          σ ← run_schedule (schedule w) (init (job_for w <$> started));
          σ' ← wait σ;
          Some (Report started (summary (mem σ')))
      end
  end.

Section Main.
(** [logrus.ParseLevel], as whether it accepts the name. *)
Variable ParseLevel : gostring → bool.

(** [main]: [NewGitPullCommand] with [setupLogger], then
    [rootCmd.Execute()]: the root command with [cobra.ExactArgs(1)] and
    [run], or the completion command, which wants one word at least
    ([cobra.MinimumNArgs(1)]), prints its proposals and never calls
    [run]. *)
Definition main (inv : invocation) (w : world) : exit :=
  if negb (ParseLevel (logLevel inv)) then Exit 1 None
  else match dispatched inv with
       | Complete words =>
           if bool_decide (words = []) then Exit 1 None else Exit 0 None
       | Root =>
           if flag_error inv then Exit 1 None
           else if help inv then Exit 0 None
           else if negb (bool_decide (length (args inv) = 1%nat))
           then Exit 1 None
           else match run w (args inv) with
                | None => Panicked
                | Some r => Exit 0 (Some r)
                end
       end.
End Main.

End Cli.

(** ** The specification's vocabulary *)

Module Spec.
Import GoStrings Prober Aggregator FilePath Walker Syncer.

(** White space only. *)
Definition blank (w : gostring) : Prop := Forall (λ c, IsSpace c = true) w.

(** A field: at least one code point, none of them white space. *)
Definition word (f : gostring) : Prop :=
  f ≠ [] ∧ Forall (λ c, IsSpace c = false) f.

(** [separated s fs]: the string [s] is the fields [fs], in this order,
    with white space between neighbours and possibly before the first and
    after the last. *)
Inductive separated : gostring → list gostring → Prop :=
| separated_blank w :
    blank w → separated w []
| separated_end w f :
    blank w → word f → separated (w ++ f) [f]
| separated_cons w f c rest fs :
    blank w → word f → IsSpace c = true → separated rest fs →
    separated (w ++ f ++ c :: rest) (f :: fs).

(** The first line of an output: what precedes the first line feed. *)
Fixpoint first_line (out : gostring) : gostring :=
  match out with
  | [] => []
  | c :: out' => if c =? newline then [] else c :: first_line out'
  end.

(** The cells of a row. *)
Definition path_of (r : row) : option gostring := r !! 0%nat.
Definition remote_of (r : row) : option gostring := r !! 1%nat.
Definition status_of (r : row) : option gostring := r !! 2%nat.

(** A record of three cells. *)
Definition record (r : row) : Prop := length r = 3%nat.

(** [p] lies strictly under the directory [d]: [d], a separator, and
    more. *)
Definition strictly_under (d p : gostring) : Prop :=
  ∃ more, more ≠ [] ∧ p = d ++ Separator :: more.

(** The pruning property as the specification words it: once a root is
    reported, nothing strictly under it is. *)
Definition pruned (roots : list gostring) : Prop :=
  ∀ r p, r ∈ roots → p ∈ roots → ¬ strictly_under r p.

(** The statuses that the specification's data model lists. *)
Definition listed_status (st : gostring) : Prop :=
  st = Pending ∨ st = Success ∨ st = Failed.

(** Reachable from the start of a run with these jobs. *)
Definition reachable (jobs : list job) (σ : state) : Prop :=
  rtc step (init jobs) σ.

(** The data-model sentence on [status], as worded: in every state of
    every run, every row holds a listed status. *)
Definition status_always_listed : Prop :=
  ∀ jobs σ r st,
    reachable jobs σ → r ∈ summary (mem σ) → status_of r = Some st →
    listed_status st.

End Spec.

(** ** Sample inputs *)

Module Examples.
Import Prober Aggregator FilePath Walker Syncer Cli.

(** The first line that [git remote -v] prints for a clone, and a second
    one. *)
Definition remote_listing : gostring :=
  str "origin" ++ [0x09] ++ str "https://host/repo.git" ++ [0x20]
    ++ str "(fetch)" ++ [0x0A]
    ++ str "origin" ++ [0x09] ++ str "https://host/repo.git" ++ [0x20]
    ++ str "(push)" ++ [0x0A].

(** A repository [R] that holds another repository in [R/sub]. *)
Definition nested_tree : node :=
  Directory (str "R") false
    [ Directory dotgit false [Regular (str "HEAD")];
      Regular (str "README");
      Directory (str "sub") false
        [ Directory dotgit false [Regular (str "HEAD")] ] ].

(** A work tree of the kind [git worktree add] makes: [.git] is a file. *)
Definition worktree : node :=
  Directory (str "W") false [Regular dotgit; Regular (str "main.go")].

(** A repository whose probe fails and whose pull succeeds, and one whose
    probe succeeds and whose pull fails. *)
Definition job_a : job := Job (str "a") (CmdOutput [] true) false.
Definition job_b : job := Job (str "b") (CmdOutput remote_listing false) true.

(** The state of [job_a] alone after its probe and its append. *)
Definition appended_a : state :=
  State (Shared [[str "a"; []; Unknown]] [GitRemoteV (str "a")])
        [Go job_a 2].

(** Both goroutines interleaved action by action, until both return. *)
Definition interleaved : list nat := [0; 1; 1; 0; 0; 1; 1; 0]%nat.

Definition finished_ab : state :=
  State (Shared [ [str "b"; str "https://host/repo.git"; Failed];
                  [str "a"; []; Success] ]
                [ GitRemoteV (str "a"); GitRemoteV (str "b");
                  GitPull (str "a"); GitPull (str "b") ])
        [Go job_a 4; Go job_b 4].

(** A tree with the two repositories [a] and [b], and a world in which
    the answers of git are those of [job_a] and [job_b]. *)
Definition two_repositories : node :=
  Directory (str ".") false
    [ Directory (str "a") false [Directory dotgit false []];
      Directory (str "b") false [Directory dotgit false []] ].

Definition world_ab : world :=
  World (λ _, two_repositories)
        (λ d, if decide (d = str "b") then CmdOutput remote_listing false
              else CmdOutput [] true)
        (λ d, bool_decide (d = str "b"))
        interleaved.

Definition accept_error_level (lvl : gostring) : bool :=
  bool_decide (lvl = str "error").

(** [gitpull .], [gitpull --log-level loud .], [gitpull a b] and
    [gitpull __complete x]. *)
Definition invoke_dot : invocation :=
  Invocation (str "error") false Root false false [str "."].

Definition invoke_loud : invocation :=
  Invocation (str "loud") false Root false false [str "."].

Definition invoke_two : invocation :=
  Invocation (str "error") false Root false false [str "a"; str "b"].

Definition invoke_complete : invocation :=
  Invocation (str "error") false (Complete [str "x"]) false false [].

End Examples.

(** ** What a walk discovers *)

Module Discovery.
Import FilePath Walker.

(** The arguments of the goroutines that a walk of the tree [n], found at
    [path], starts, in the order of the walk: [Dir] of the path of every
    readable [.git] directory that is reached through readable directories
    not named [.git]. *)
Fixpoint found (path : gostring) (n : node) : list gostring :=
  match n with
  | Directory name false entries =>
      if bool_decide (name = dotgit) then [Dir path]
      else flat_map (λ e, found (Join path (node_name e)) e) entries
  | _ => []
  end.

(** A path element that [Clean] keeps as it is. *)
Definition plain (e : gostring) : Prop :=
  e ≠ [] ∧ e ≠ dot ∧ e ≠ dotdot ∧ Separator ∉ e.

(** A tree as a file system has it: every name is a plain element and no
    two entries of a directory share a name. *)
Fixpoint wellformed (n : node) : Prop :=
  plain (node_name n) ∧
  match n with
  | Directory _ _ entries =>
      NoDup (node_name <$> entries)
      ∧ (fix all (es : list node) : Prop :=
           match es with
           | [] => True
           | e :: es' => wellformed e ∧ all es'
           end) entries
  | _ => True
  end.

(** The same discovery on paths as lists of elements: [parent] is the
    directory that holds the entry [e]. *)
Fixpoint found_under (parent : list gostring) (e : node)
  : list (list gostring) :=
  match e with
  | Directory name false entries =>
      if bool_decide (name = dotgit) then [parent]
      else flat_map (found_under (parent ++ [name])) entries
  | _ => []
  end.

(** The entries of the root need to be well formed only: its own name
    is whatever the argument of the program ends in. *)
Definition wellformed_root (n : node) : Prop :=
  match n with
  | Directory _ _ entries =>
      NoDup (node_name <$> entries) ∧ Forall wellformed entries
  | _ => True
  end.

(** A clean path, from its plain elements: rooted or relative, where the
    relative path without elements is [.] and the rooted one is [/]. *)
Definition render (rooted : bool) (elems : list gostring) : gostring :=
  if rooted then Separator :: join_elems elems
  else match elems with [] => dot | _ => join_elems elems end.

(** The pieces between the separators of [render rooted elems]. *)
Definition raw_of (rooted : bool) (elems : list gostring) : list gostring :=
  match rooted, elems with
  | true, [] => [[]; []]
  | true, _ => [] :: elems
  | false, [] => [dot]
  | false, _ => elems
  end.

(** What [Clean] keeps of pieces without [..]. *)
Definition kept (raw : list gostring) : list gostring :=
  filter (λ e, e ≠ [] ∧ e ≠ dot) raw.

(** [leads n chain m]: the names [chain] lead from [n] down to [m], through
    readable directories none of which is named [.git]. *)
Inductive leads : node → list gostring → node → Prop :=
| leads_here n : leads n [] n
| leads_down name entries e chain m :
    name ≠ dotgit → e ∈ entries → leads e chain m →
    leads (Directory name false entries) (node_name e :: chain) m.

(** A readable directory, not named [.git], with a readable directory
    [.git] among its entries. *)
Definition holds_repository (m : node) : Prop :=
  ∃ name entries sub,
    m = Directory name false entries ∧ name ≠ dotgit
    ∧ Directory dotgit false sub ∈ entries.

End Discovery.

(** * Properties *)

(** ** Fields, lines and trimming *)

Section StringFacts.
Import GoStrings Prober Spec.

Lemma fields_from_blank w s :
  blank w → fields_from [] (w ++ s) = fields_from [] s.
Proof.
  induction 1 as [|c w Hc _ IH]; simpl; [done|]. by rewrite Hc.
Qed.

Lemma fields_from_nonspace cur f s :
  Forall (λ c, IsSpace c = false) f →
  fields_from cur (f ++ s) = fields_from (cur ++ f) s.
Proof.
  intros Hf. revert cur.
  induction Hf as [|c f Hc _ IH]; intros cur; simpl.
  - by rewrite app_nil_r.
  - rewrite Hc, IH. by rewrite <- app_assoc.
Qed.

Lemma fields_from_close cur c s :
  cur ≠ [] → IsSpace c = true →
  fields_from cur (c :: s) = cur :: fields_from [] s.
Proof. intros Hcur Hc. simpl. rewrite Hc. by destruct cur. Qed.

Lemma fields_from_eof cur : cur ≠ [] → fields_from cur [] = [cur].
Proof. by destruct cur. Qed.

Lemma fields_from_trailing cur s w :
  blank w → fields_from cur (s ++ w) = fields_from cur s.
Proof.
  intros Hw. revert cur. induction s as [|c s IH]; intros cur; simpl.
  - destruct Hw as [|c w Hc Hw]; [done|].
    simpl. rewrite Hc.
    rewrite <- (app_nil_r w), (fields_from_blank w [] Hw). simpl.
    by destruct cur.
  - destruct (IsSpace c); [destruct cur|]; by rewrite ?IH.
Qed.

Lemma separated_Fields s fs : separated s fs → Fields s = fs.
Proof.
  unfold Fields.
  induction 1 as [w Hw|w f Hw [Hne Hf]|w f c rest fs Hw [Hne Hf] Hc _ IH].
  - rewrite <- (app_nil_r w). by rewrite fields_from_blank.
  - rewrite fields_from_blank by done.
    pose proof (fields_from_nonspace [] f [] Hf) as E.
    rewrite app_nil_r in E. rewrite E. by apply fields_from_eof.
  - rewrite fields_from_blank, fields_from_nonspace by done.
    rewrite app_nil_l, fields_from_close by done. by rewrite IH.
Qed.

Lemma separated_lead c s fs :
  IsSpace c = true → separated s fs → separated (c :: s) fs.
Proof.
  intros Hc. destruct 1 as [w Hw|w f Hw Hf|w f c' rest fs Hw Hf Hc' Hrest].
  - apply separated_blank. by constructor.
  - apply (separated_end (c :: w)); [by constructor|done].
  - apply (separated_cons (c :: w)); [by constructor|done..].
Qed.

Lemma fields_from_separated s cur :
  cur = [] ∨ word cur → separated (cur ++ s) (fields_from cur s).
Proof.
  revert cur. induction s as [|c s IH]; intros cur Hcur.
  - rewrite app_nil_r. destruct Hcur as [->|Hword].
    + apply separated_blank. constructor.
    + rewrite fields_from_eof by apply Hword.
      apply (separated_end []); [constructor|done].
  - destruct (IsSpace c) eqn:Hc.
    + destruct Hcur as [->|Hword].
      * simpl. rewrite Hc. apply separated_lead; [done|].
        apply (IH []). by left.
      * rewrite fields_from_close by (done || apply Hword).
        apply (separated_cons [] cur c s); [constructor|done..|].
        apply (IH []). by left.
    + simpl. rewrite Hc.
      replace (cur ++ c :: s) with ((cur ++ [c]) ++ s)
        by by rewrite <- app_assoc.
      apply IH. right. split; [by destruct cur|].
      apply Forall_app. split; [|by repeat constructor].
      destruct Hcur as [->|[_ ?]]; [constructor|done].
Qed.

(** [strings.Fields] computes the fields of the specification. *)
Lemma Fields_spec s fs : Fields s = fs ↔ separated s fs.
Proof.
  split; [intros <-|apply separated_Fields].
  apply (fields_from_separated s []). by left.
Qed.

Lemma Fields_words s : Forall word (Fields s).
Proof.
  assert (∀ s fs, separated s fs → Forall word fs) as H.
  { clear s. intros s fs. induction 1.
    - apply Forall_nil_2.
    - by apply Forall_singleton.
    - by apply Forall_cons_2. }
  apply (H s). by apply Fields_spec.
Qed.

Lemma TrimLeftSpace_split s :
  ∃ w, blank w ∧ s = w ++ TrimLeftSpace s.
Proof.
  induction s as [|c s (w & Hw & IH)]; simpl.
  - exists []. split; [constructor|done].
  - destruct (IsSpace c) eqn:Hc.
    + exists (c :: w). split; [by constructor|]. simpl. by rewrite <- IH.
    + exists []. split; [constructor|done].
Qed.

Lemma TrimRightSpace_split s :
  ∃ w, blank w ∧ s = TrimRightSpace s ++ w.
Proof.
  unfold TrimRightSpace.
  destruct (TrimLeftSpace_split (reverse s)) as (w & Hw & Hs).
  exists (reverse w). split.
  - unfold blank in *. rewrite Forall_forall in *. intros c Hc.
    apply Hw. by apply elem_of_reverse.
  - rewrite <- reverse_app, <- Hs. by rewrite reverse_involutive.
Qed.

(** Trimming changes no field. *)
Lemma Fields_TrimSpace s : Fields (TrimSpace s) = Fields s.
Proof.
  unfold TrimSpace, Fields.
  destruct (TrimRightSpace_split (TrimLeftSpace s)) as (w2 & Hw2 & H2).
  destruct (TrimLeftSpace_split s) as (w1 & Hw1 & H1).
  rewrite H1 at 2. rewrite fields_from_blank by done.
  rewrite H2 at 2. by rewrite fields_from_trailing.
Qed.

(** [lines[0]] of the split at line feeds is the first line. *)
Lemma Split_first_line out :
  ∃ more, Split out newline = first_line out :: more.
Proof.
  induction out as [|c out [more IH]]; simpl; [by eexists|].
  destruct (c =? newline); [by eexists|].
  rewrite IH. by eexists.
Qed.

(** [getGitStatus] in terms of the fields of the first line. *)
Lemma getGitStatus_fields out :
  getGitStatus (CmdOutput out false) =
    match Fields (first_line out) with
    | [_; remote; _] => (remote, Pending)
    | _ => ([], Unknown)
    end.
Proof.
  unfold getGitStatus. simpl.
  destruct (Split_first_line out) as [more ->].
  rewrite Fields_TrimSpace.
  destruct (Fields (first_line out)) as [|a [|b [|c [|d l]]]]; done.
Qed.

End StringFacts.

(** ** Status Prober *)

Section ProberFacts.
Import GoStrings Prober Spec Examples.

Lemma Unknown_not_Pending : Unknown ≠ Pending.
Proof. by vm_compute. Qed.

(** C2: when the first line of the remote listing is three fields
    separated by white space, [getGitStatus] returns the second field and
    ["Pending"]; when it is not, or when the command fails, it returns
    the empty remote and ["Unknown"]. *)
Theorem getGitStatus_three_fields (out : gostring) :
  (∀ name url tag,
      separated (first_line out) [name; url; tag] →
      getGitStatus (CmdOutput out false) = (url, Pending))
  ∧ ((∀ name url tag, ¬ separated (first_line out) [name; url; tag]) →
      getGitStatus (CmdOutput out false) = ([], Unknown))
  ∧ getGitStatus (CmdOutput out true) = ([], Unknown).
Proof.
  split; [|split].
  - intros name url tag Hsep. apply Fields_spec in Hsep.
    by rewrite getGitStatus_fields, Hsep.
  - intros Hnot. rewrite getGitStatus_fields.
    destruct (Fields (first_line out)) as [|a [|b [|c [|d l]]]] eqn:HF;
      try done.
    destruct (Hnot a b c). by apply Fields_spec.
  - done.
Qed.

Lemma getGitStatus_three_fields_witness :
  getGitStatus (CmdOutput remote_listing false)
    = (str "https://host/repo.git", Pending)
  ∧ getGitStatus (CmdOutput [] false) = ([], Unknown).
Proof.
  split.
  - apply (proj1 (getGitStatus_three_fields remote_listing)
             (str "origin") (str "https://host/repo.git") (str "(fetch)")).
    apply Fields_spec. vm_compute. reflexivity.
  - apply (proj1 (proj2 (getGitStatus_three_fields []))).
    intros name url tag Hsep. apply Fields_spec in Hsep.
    vm_compute in Hsep. discriminate Hsep.
Defined.

(** C9: a ["Pending"] answer of [getGitStatus] carries a remote that is
    not empty: it is the second of the three fields of the first line,
    and a field holds at least one code point. *)
Theorem pending_remote_nonempty (res : cmd_output) (remote : gostring) :
  getGitStatus res = (remote, Pending) →
  remote ≠ []
  ∧ failed res = false
  ∧ ∃ name tag,
      separated (first_line (stdout res)) [name; remote; tag]
      ∧ word name ∧ word remote ∧ word tag.
Proof.
  destruct res as [out [|]]; intros H.
  - exfalso. apply Unknown_not_Pending. by inversion H.
  - rewrite getGitStatus_fields in H.
    pose proof (Fields_words (first_line out)) as Hwords.
    destruct (Fields (first_line out)) as [|a [|b [|c [|d l]]]] eqn:HF;
      try (exfalso; apply Unknown_not_Pending; by inversion H).
    inversion H; subst b.
    apply Forall_cons in Hwords as [Ha Hwords].
    apply Forall_cons in Hwords as [Hb Hwords].
    apply Forall_cons in Hwords as [Hc _].
    split; [apply Hb|]. split; [done|].
    exists a, c. split; [by apply Fields_spec|done].
Qed.

Lemma pending_remote_nonempty_witness :
  getGitStatus (CmdOutput remote_listing false)
    = (str "https://host/repo.git", Pending)
  ∧ str "https://host/repo.git" ≠ [].
Proof.
  assert (getGitStatus (CmdOutput remote_listing false)
          = (str "https://host/repo.git", Pending)) as H
    by (vm_compute; reflexivity).
  split; [exact H|].
  exact (proj1 (pending_remote_nonempty _ _ H)).
Defined.

End ProberFacts.

(** ** Result Aggregator *)

Section AggregatorFacts.
Import Prober Aggregator Syncer Spec Examples.

Lemma record_cells (r : row) :
  record r → ∃ p u st, r = [p; u; st].
Proof.
  unfold record. destruct r as [|p [|u [|st [|x r]]]]; try done.
  by exists p, u, st.
Qed.

(** Writing the status cell of a record. *)
Lemma set_status_record (r : row) (st : gostring) :
  record r →
  record (<[2%nat := st]> r)
  ∧ path_of (<[2%nat := st]> r) = path_of r
  ∧ remote_of (<[2%nat := st]> r) = remote_of r
  ∧ status_of (<[2%nat := st]> r) = Some st.
Proof. intros (p & u & st0 & ->)%record_cells. done. Qed.

(** No row matches: the loop runs to its end and writes nothing. *)
Lemma updateStatus_miss (summary : list row) (dir status : gostring) :
  Forall record summary →
  (∀ r, r ∈ summary → path_of r ≠ Some dir) →
  updateStatus summary dir status = Some summary.
Proof.
  induction 1 as [|r summary Hr _ IH]; intros Hmiss; [done|].
  destruct (record_cells r Hr) as (p & u & st & ->). simpl.
  destruct (decide (p = dir)) as [->|_].
  - destruct (Hmiss [dir; u; st]); [left|done].
  - rewrite IH; [done|]. intros r' Hr'. apply Hmiss. by right.
Qed.

(** The first matching row is at index [i]: its status cell is written
    and the loop breaks. *)
Lemma updateStatus_hit (summary : list row) (dir status : gostring)
      (i : nat) (r : row) :
  Forall record summary →
  summary !! i = Some r →
  path_of r = Some dir →
  (∀ j r', (j < i)%nat → summary !! j = Some r' → path_of r' ≠ Some dir) →
  updateStatus summary dir status
    = Some (<[i := <[2%nat := status]> r]> summary).
Proof.
  intros Hrec. revert i.
  induction Hrec as [|r0 summary Hr0 _ IH]; intros i Hi Hpath Hfirst;
    [done|].
  destruct (record_cells r0 Hr0) as (p & u & st & ->).
  destruct i as [|i]; simpl in *.
  - inversion Hi; subst r. inversion Hpath; subst p.
    by rewrite decide_True.
  - destruct (decide (p = dir)) as [->|_].
    + destruct (Hfirst 0%nat [dir; u; st]); [lia|done..].
    + rewrite (IH i); [done..|].
      intros j r' Hj Hr'. apply (Hfirst (S j)); [lia|done].
Qed.

(** On records [updateStatus] does not panic and keeps the length. *)
Lemma updateStatus_total (summary : list row) (dir status : gostring) :
  Forall record summary →
  ∃ summary',
    updateStatus summary dir status = Some summary'
    ∧ length summary' = length summary
    ∧ Forall record summary'.
Proof.
  induction 1 as [|r summary Hr Hrec (s' & IH & Hlen & Hrec')].
  - by exists [].
  - destruct (record_cells r Hr) as (p & u & st & ->). simpl.
    destruct (decide (p = dir)) as [->|_].
    + eexists. split; [done|]. split; [done|]. by constructor.
    + rewrite IH. eexists. split; [done|]. simpl.
      split; [by rewrite Hlen|by constructor].
Qed.

(** C6: on a collection of records [updateStatus] overwrites the status
    cell of the first row whose path matches and nothing else: that row
    keeps its path and its remote, every other row is the same row, and
    when no row matches the collection is the same collection. *)
Theorem updateStatus_frame (summary : list row) (dir status : gostring) :
  Forall record summary →
  ∃ summary',
    updateStatus summary dir status = Some summary'
    ∧ length summary' = length summary
    ∧ ((∀ r, r ∈ summary → path_of r ≠ Some dir) → summary' = summary)
    ∧ (∀ i r,
          summary !! i = Some r →
          path_of r = Some dir →
          (∀ j r', (j < i)%nat → summary !! j = Some r' →
                   path_of r' ≠ Some dir) →
          (∃ r', summary' !! i = Some r'
                 ∧ record r'
                 ∧ path_of r' = path_of r
                 ∧ remote_of r' = remote_of r
                 ∧ status_of r' = Some status)
          ∧ (∀ k, k ≠ i → summary' !! k = summary !! k)).
Proof.
  intros Hrec.
  destruct (updateStatus_total summary dir status Hrec)
    as (summary' & Hupd & Hlen & _).
  exists summary'. split; [done|]. split; [done|]. split.
  - intros Hmiss. rewrite updateStatus_miss in Hupd by done.
    by inversion Hupd.
  - intros i r Hi Hpath Hfirst.
    rewrite (updateStatus_hit _ _ _ i r) in Hupd by done.
    inversion Hupd; subst summary'; clear Hupd.
    assert (record r) as Hr.
    { rewrite Forall_forall in Hrec. apply Hrec.
      by apply list_elem_of_lookup_2 in Hi. }
    destruct (set_status_record r status Hr) as (? & ? & ? & ?).
    split.
    + exists (<[2%nat := status]> r). split; [|done].
      apply list_lookup_insert_eq. by apply lookup_lt_Some in Hi.
    + intros k Hk. by apply list_lookup_insert_ne.
Qed.

Lemma updateStatus_frame_witness :
  Forall record (summary (mem finished_ab))
  ∧ ∃ summary',
      updateStatus (summary (mem finished_ab)) (str "a") Pending
        = Some summary'
      ∧ length summary' = 2%nat.
Proof.
  assert (Forall record (summary (mem finished_ab))) as Hrec
    by (repeat constructor).
  split; [exact Hrec|].
  destruct (updateStatus_frame (summary (mem finished_ab)) (str "a")
              Pending Hrec) as (s' & Hupd & Hlen & _).
  exists s'. split; [exact Hupd|exact Hlen].
Defined.

End AggregatorFacts.

(** ** Tree Walker *)

Section WalkerFacts.
Import FilePath Walker Spec Examples.

(** Induction on trees, with the hypothesis for every entry of a
    directory. *)
Lemma node_induction (P : node → Prop) :
  (∀ name, P (NoStat name)) →
  (∀ name, P (Regular name)) →
  (∀ name unreadable entries,
      Forall P entries → P (Directory name unreadable entries)) →
  ∀ n, P n.
Proof.
  intros HN HR HD. fix IH 1. intros [name|name|name unreadable entries].
  - apply HN.
  - apply HR.
  - apply HD. induction entries as [|e entries IHes].
    + apply Forall_nil_2.
    + apply Forall_cons_2; [apply IH|apply IHes].
Qed.

(** The loop over the entries, entry list by entry list. *)
Lemma walk_entries_app {S} (fn : WalkFunc S) rec path es1 es2 s :
  walk_entries fn rec path (es1 ++ es2) s =
    match walk_entries fn rec path es1 s with
    | Ret s1 None => walk_entries fn rec path es2 s1
    | other => other
    end.
Proof.
  revert s. induction es1 as [|e es1 IH]; intros s; [done|].
  simpl. destruct e as [name|name|name unreadable entries].
  - destruct (fn _ _ _ s) as [|s' [[| |]|]]; by rewrite ?IH.
  - destruct (rec _ _ s) as [|s' [err|]]; by rewrite ?IH.
  - destruct (rec _ _ s) as [|s' [[| |]|]]; by rewrite ?IH.
Qed.

(** What [visit] does, by the kind of entry. *)
Lemma visit_no_directory path name g :
  visit path (Some (Info name false)) None g = Ret g None.
Proof. done. Qed.

Lemma visit_error path info err g :
  visit path info (Some err) g = Ret g None.
Proof. done. Qed.

Lemma visit_directory path name g :
  visit path (Some (Info name true)) None g =
    if bool_decide (name = dotgit)
    then Ret (g ++ [Dir path]) (Some SkipDir)
    else Ret g None.
Proof. done. Qed.

(** With [visit] the walk never panics and never stops early: it returns
    [nil], or [SkipDir] for a directory. *)
Lemma walk_visit_returns n : ∀ path g,
  ∃ g', walk visit path n g = Ret g' None
        ∨ ((∃ name u es, n = Directory name u es)
           ∧ walk visit path n g = Ret g' (Some SkipDir)).
Proof.
  induction n as [name|name|name unreadable entries IH]
    using node_induction; intros path g.
  - exists g. by left.
  - exists g. by left.
  - simpl. destruct unreadable; simpl.
    { exists g. by left. }
    destruct (bool_decide (name = dotgit)).
    { eexists. right. split; [by eexists _, _, _|done]. }
    simpl.
    assert (∀ g, ∃ g', walk_entries visit (walk visit) path entries g
                       = Ret g' None) as Hloop.
    { clear g. induction IH as [|e entries He _ IHes]; intros g.
      { by exists g. }
      simpl. destruct (He (Join path (node_name e)) g) as [g1 Hg1].
      destruct e as [ename|ename|ename unreadable es].
      - destruct Hg1 as [Hg1|[_ Hg1]]; simpl in Hg1; [|done].
        inversion Hg1; subst g1. apply IHes.
      - destruct Hg1 as [Hg1|[(? & ? & ? & ?) _]]; [|done].
        rewrite Hg1. apply IHes.
      - destruct Hg1 as [Hg1|[_ Hg1]]; rewrite Hg1; apply IHes. }
    destruct (Hloop g) as [g' Hg']. exists g'. by left.
Qed.

Lemma Walk_visit_returns root n g :
  ∃ g', Walk visit root n g = Ret g' None.
Proof.
  unfold Walk.
  destruct (walk_visit_returns n root g) as [g' [->|[_ ->]]];
    by exists g'.
Qed.

(** C1, on the code: below the repository [R] the walk skips [R/.git]
    only; it goes on into [R/sub], finds [R/sub/.git] and starts a second
    goroutine for [R/sub], which lies strictly under [R]. *)
Theorem nested_repository_reported :
  Walk visit (str "R") nested_tree [] = Ret [str "R"; str "R/sub"] None
  ∧ ¬ pruned [str "R"; str "R/sub"].
Proof.
  split; [by vm_compute|].
  intros Hpruned.
  apply (Hpruned (str "R") (str "R/sub")).
  - by left.
  - right. by left.
  - exists (str "sub"). split; [by vm_compute|by vm_compute].
Qed.

(** C10: an entry named [.git] that is no directory makes [visit] start
    nothing and return [nil], and a directory with such an entry is
    walked as the same directory without it: the entry adds no goroutine
    for its parent or for anything else. *)
Theorem dotgit_file_is_no_repository (path : gostring) (g : spawned) :
  visit path (Some (Info dotgit false)) None g = Ret g None
  ∧ walk visit path (Regular dotgit) g = Ret g None
  ∧ ∀ name unreadable before after,
      walk visit path
        (Directory name unreadable (before ++ Regular dotgit :: after)) g
      = walk visit path (Directory name unreadable (before ++ after)) g.
Proof.
  split; [done|]. split; [done|].
  intros name unreadable before after. simpl.
  destruct (visit path _ _ g) as [|g1 err1]; [done|].
  destruct (unreadable || bool_decide (err1 ≠ None)); [done|].
  rewrite !walk_entries_app.
  destruct (walk_entries visit (walk visit) path before g1)
    as [|g2 [err|]]; done.
Qed.

End WalkerFacts.

(** ** Goroutines *)

Section SyncerFacts.
Import Prober Aggregator Syncer Spec Examples.
Local Open Scope nat_scope.

(** *** The program of a goroutine *)

Lemma next_cases t :
  next t =
    match pc t with
    | 0 => Some (Exec (GitRemoteV (dir (job_of t))))
    | 1 => Some (Append (initial_row (job_of t)))
    | 2 => Some (Exec (GitPull (dir (job_of t))))
    | 3 => Some (Update (dir (job_of t)) (final_status (job_of t)))
    | _ => None
    end.
Proof.
  unfold next, pullRepository, initial_row, final_status.
  destruct (getGitStatus _).
  by destruct (pc t) as [|[|[|[|[|]]]]].
Qed.

Lemma pending_cases t :
  pending_commands t =
    match pc t with
    | 0 => [GitRemoteV (dir (job_of t)); GitPull (dir (job_of t))]
    | 1 | 2 => [GitPull (dir (job_of t))]
    | _ => []
    end.
Proof.
  unfold pending_commands, pullRepository.
  destruct (getGitStatus _).
  by destruct (pc t) as [|[|[|[|[|]]]]].
Qed.

Lemma returned_pc t : returned t ↔ 4 ≤ pc t.
Proof.
  unfold returned, pullRepository. by destruct (getGitStatus _).
Qed.

Lemma returned_next t : returned t ↔ next t = None.
Proof.
  rewrite returned_pc, next_cases.
  destruct (pc t) as [|[|[|[|[|]]]]]; split; (done || lia).
Qed.

Lemma initial_row_record j :
  record (initial_row j) ∧ path_of (initial_row j) = Some (dir j).
Proof. done. Qed.

Lemma final_row_record j :
  record (final_row j) ∧ path_of (final_row j) = Some (dir j).
Proof. done. Qed.

Lemma set_final_status j :
  <[2 := final_status j]> (initial_row j) = final_row j.
Proof. done. Qed.

Lemma row_of_record t r :
  row_of t = Some r → record r ∧ path_of r = Some (dir (job_of t)).
Proof.
  unfold row_of. repeat case_decide; intros Hrow; inversion Hrow; done.
Qed.

Lemma row_of_cases t :
  row_of t =
    match pc t with
    | 0 | 1 => None
    | 2 | 3 => Some (initial_row (job_of t))
    | _ => Some (final_row (job_of t))
    end.
Proof. unfold row_of. by destruct (pc t) as [|[|[|[|]]]]. Qed.

Lemma initial_status_cases j :
  status_of (initial_row j) = Some Pending
  ∨ status_of (initial_row j) = Some Unknown.
Proof.
  unfold initial_row, status_of, getGitStatus. simpl.
  destruct (failed _); [by right|].
  destruct (GoStrings.Split _ _); [by right|].
  case_decide; [|by right].
  destruct (_ !! 1); [by left|by right].
Qed.

Lemma final_status_cases j :
  final_status j = Success ∨ final_status j = Failed.
Proof. unfold final_status. destruct (pull_err j); auto. Qed.

(** *** Lists of goroutines *)

Lemma omap_insert {A B} (f : A → option B) (l : list A) i t t' :
  l !! i = Some t →
  omap f l = omap f (take i l) ++ option_list (f t) ++ omap f (drop (S i) l)
  ∧ omap f (<[i := t']> l)
    = omap f (take i l) ++ option_list (f t') ++ omap f (drop (S i) l).
Proof.
  intros Hi. split.
  - rewrite <- (take_drop_middle l i t Hi) at 1.
    rewrite omap_app. simpl. by destruct (f t).
  - rewrite insert_take_drop by by eapply lookup_lt_Some.
    rewrite omap_app. simpl. by destruct (f t').
Qed.

Lemma concat_insert {A B} (f : A → list B) (l : list A) i t t' :
  l !! i = Some t →
  concat (f <$> l)
    = concat (f <$> take i l) ++ f t ++ concat (f <$> drop (S i) l)
  ∧ concat (f <$> <[i := t']> l)
    = concat (f <$> take i l) ++ f t' ++ concat (f <$> drop (S i) l).
Proof.
  intros Hi. split.
  - rewrite <- (take_drop_middle l i t Hi) at 1.
    by rewrite fmap_app, fmap_cons, concat_app, concat_cons.
  - rewrite insert_take_drop by by eapply lookup_lt_Some.
    by rewrite fmap_app, fmap_cons, concat_app, concat_cons.
Qed.

Lemma omap_insert_same {A B} (f : A → option B) (l : list A) i t t' :
  l !! i = Some t → f t' = f t → omap f (<[i := t']> l) = omap f l.
Proof.
  intros Hi Hf. destruct (omap_insert f l i t t' Hi) as [-> ->].
  by rewrite Hf.
Qed.

Lemma jobs_advance (l : list goroutine) i t :
  l !! i = Some t → job_of <$> <[i := advance t]> l = job_of <$> l.
Proof.
  intros Hi. rewrite list_fmap_insert. apply list_insert_id.
  by rewrite list_lookup_fmap, Hi.
Qed.

(** With distinct directories, the rows of the other goroutines carry
    other paths. *)
Lemma other_rows (l : list goroutine) i t :
  NoDup (dir <$> (job_of <$> l)) →
  l !! i = Some t →
  Forall (λ r, record r ∧ path_of r ≠ Some (dir (job_of t)))
         (omap row_of (take i l) ++ omap row_of (drop (S i) l)).
Proof.
  intros Hnodup Hi.
  rewrite <- (take_drop_middle l i t Hi) in Hnodup.
  rewrite !fmap_app, !fmap_cons in Hnodup.
  apply NoDup_app in Hnodup as (_ & Hleft & Hright).
  apply NoDup_cons in Hright as [Hright _].
  rewrite <- omap_app. apply Forall_forall. intros r Hr.
  apply list_elem_of_omap in Hr as (t' & Ht' & Hrow).
  destruct (row_of_record _ _ Hrow) as [Hrec Hpath].
  split; [done|]. rewrite Hpath. intros [= Heq].
  apply elem_of_app in Ht' as [Ht'|Ht'].
  - apply (Hleft (dir (job_of t'))).
    + by do 2 apply list_elem_of_fmap_2.
    + rewrite Heq. by left.
  - apply Hright. rewrite <- Heq. by do 2 apply list_elem_of_fmap_2.
Qed.

(** *** [updateStatus] on a summary with one row for the path *)

Lemma updateStatus_middle (pre post : list row) r dir status :
  Forall (λ r', record r' ∧ path_of r' ≠ Some dir) pre →
  record r → path_of r = Some dir →
  updateStatus (pre ++ r :: post) dir status
    = Some (pre ++ <[2 := status]> r :: post).
Proof.
  intros Hpre Hr Hpath.
  induction Hpre as [|r' pre [Hr' Hne] _ IH]; simpl.
  - destruct (record_cells r Hr) as (p & u & st & ->).
    inversion Hpath; subst p. simpl. by rewrite decide_True.
  - destruct (record_cells r' Hr') as (p & u & st & ->). simpl.
    rewrite decide_False by (intros ->; by apply Hne).
    by rewrite IH.
Qed.

Lemma updateStatus_permutation (summary rest : list row) r dir status :
  summary ≡ₚ r :: rest →
  record r → path_of r = Some dir →
  Forall (λ r', record r' ∧ path_of r' ≠ Some dir) rest →
  ∃ summary',
    updateStatus summary dir status = Some summary'
    ∧ summary' ≡ₚ <[2 := status]> r :: rest.
Proof.
  intros Hperm Hr Hpath Hrest.
  assert (r ∈ summary) as Hin by (rewrite Hperm; by left).
  apply list_elem_of_split in Hin as (pre & post & ->).
  rewrite <- Permutation_middle in Hperm.
  apply Permutation_cons_inv in Hperm.
  rewrite <- Hperm in Hrest. apply Forall_app in Hrest as [Hpre Hpost].
  exists (pre ++ <[2 := status]> r :: post). split.
  - by apply updateStatus_middle.
  - by rewrite <- Permutation_middle, Hperm.
Qed.

(** *** Invariants of a run *)

Ltac step_cases Hstep t a Hi Hperf :=
  let i := fresh "i" in
  let m' := fresh "m'" in
  let Hnext := fresh "Hnext" in
  destruct Hstep as [? i t a m' Hi Hnext Hperf];
  rewrite next_cases in Hnext;
  destruct (pc t) as [|[|[|[|]]]] eqn:Hpc;
  inversion Hnext; subst a; clear Hnext; simpl in Hperf.

Lemma step_records σ σ' :
  step σ σ' →
  Forall record (summary (mem σ)) → Forall record (summary (mem σ')).
Proof.
  intros Hstep Hrec. step_cases Hstep t a Hi Hperf.
  - by inversion Hperf.
  - inversion Hperf. simpl. apply Forall_app. split; [done|].
    by apply Forall_singleton.
  - by inversion Hperf.
  - destruct (updateStatus_total (summary (mem σ)) (dir (job_of t))
                (final_status (job_of t)) Hrec) as (s' & Hs' & _ & Hrec').
    rewrite Hs' in Hperf. by inversion Hperf.
Qed.

Lemma step_consistent jobs σ σ' :
  NoDup (dir <$> jobs) → step σ σ' →
  consistent jobs σ → consistent jobs σ'.
Proof.
  intros Hnodup Hstep [Hjobs Hsum]. step_cases Hstep t a Hi Hperf.
  - inversion Hperf; subst; clear Hperf.
    split; simpl; [by rewrite jobs_advance|].
    rewrite (omap_insert_same _ _ _ t); [done..|].
    rewrite !row_of_cases. simpl. by rewrite Hpc.
  - inversion Hperf; subst; clear Hperf.
    split; simpl; [by rewrite jobs_advance|].
    destruct (omap_insert row_of _ _ _ (advance t) Hi) as [E1 E2].
    rewrite E2, Hsum, E1, (row_of_cases t), (row_of_cases (advance t)).
    simpl. rewrite Hpc. simpl.
    rewrite <- Permutation_cons_append. by rewrite <- Permutation_middle.
  - inversion Hperf; subst; clear Hperf.
    split; simpl; [by rewrite jobs_advance|].
    rewrite (omap_insert_same _ _ _ t); [done..|].
    rewrite !row_of_cases. simpl. by rewrite Hpc.
  - destruct (omap_insert row_of _ _ _ (advance t) Hi) as [E1 E2].
    rewrite E1, (row_of_cases t), Hpc in Hsum. simpl in Hsum.
    rewrite <- Permutation_middle in Hsum.
    rewrite <- Hjobs in Hnodup.
    destruct (updateStatus_permutation _ _ _ (dir (job_of t))
                (final_status (job_of t)) Hsum)
      as (s' & Hs' & Hperm);
      [apply initial_row_record..|by apply other_rows|].
    rewrite Hs' in Hperf. inversion Hperf; subst; clear Hperf.
    split; simpl; [by rewrite jobs_advance|].
    rewrite E2, Hperm, (row_of_cases (advance t)). simpl. rewrite Hpc.
    simpl. by rewrite <- Permutation_middle.
Qed.

Lemma step_outstanding σ σ' :
  step σ σ' → outstanding σ' ≡ₚ outstanding σ.
Proof.
  intros Hstep. unfold outstanding.
  destruct Hstep as [σ i t a m' Hi Hnext Hperf]. simpl.
  destruct (concat_insert pending_commands _ _ _ (advance t) Hi)
    as [-> ->].
  rewrite next_cases in Hnext.
  rewrite (pending_cases t), (pending_cases (advance t)). simpl.
  destruct (pc t) as [|[|[|[|]]]];
    inversion Hnext; subst a; simpl in Hperf.
  - inversion Hperf; subst m'; simpl.
    rewrite <- !app_assoc. simpl. by rewrite <- !Permutation_middle.
  - by inversion Hperf; subst m'.
  - inversion Hperf; subst m'; simpl.
    rewrite <- !app_assoc. simpl. by rewrite <- !Permutation_middle.
  - destruct (updateStatus _ _ _); inversion Hperf; by subst m'.
Qed.

Lemma init_consistent jobs : consistent jobs (init jobs).
Proof.
  split; simpl.
  - rewrite <- list_fmap_compose. apply list_fmap_id.
  - induction jobs; simpl; done.
Qed.

(** Induction along a run, last step first. *)
Lemma reachable_ind jobs (P : state → Prop) :
  P (init jobs) →
  (∀ σ σ', reachable jobs σ → step σ σ' → P σ → P σ') →
  ∀ σ, reachable jobs σ → P σ.
Proof.
  intros Hinit Hstep σ Hreach.
  by apply (rtc_ind_r P (init jobs) Hinit Hstep).
Qed.

Lemma reachable_records jobs σ :
  reachable jobs σ → Forall record (summary (mem σ)).
Proof.
  revert σ. apply reachable_ind.
  - constructor.
  - intros σ σ' _ Hstep IH. by eapply step_records.
Qed.

Lemma reachable_consistent jobs σ :
  NoDup (dir <$> jobs) → reachable jobs σ → consistent jobs σ.
Proof.
  intros Hnodup. revert σ. apply reachable_ind.
  - apply init_consistent.
  - intros σ σ' _ Hstep IH. by eapply step_consistent.
Qed.

Lemma reachable_outstanding jobs σ :
  reachable jobs σ →
  outstanding σ
    ≡ₚ concat ((λ j, [GitRemoteV (dir j); GitPull (dir j)]) <$> jobs).
Proof.
  revert σ. apply reachable_ind.
  - unfold outstanding, init. simpl. rewrite <- list_fmap_compose.
    assert (pending_commands ∘ (λ j, Go j 0) <$> jobs
            = (λ j, [GitRemoteV (dir j); GitPull (dir j)]) <$> jobs) as ->;
      [|done].
    apply list_fmap_ext. intros _ j _. simpl. by rewrite pending_cases.
  - intros σ σ' _ Hstep IH. by rewrite (step_outstanding σ σ').
Qed.

Lemma finished_outstanding σ :
  finished σ → outstanding σ = trace (mem σ).
Proof.
  unfold finished, outstanding. intros Hfin.
  assert (concat (pending_commands <$> threads σ) = []) as ->;
    [|by rewrite app_nil_r].
  induction Hfin as [|t l Ht _ IH]; [done|].
  rewrite fmap_cons, concat_cons, IH, pending_cases.
  apply returned_pc in Ht. by destruct (pc t) as [|[|[|[|]]]]; try lia.
Qed.

Lemma finished_rows (l : list goroutine) :
  Forall returned l → omap row_of l = final_row <$> (job_of <$> l).
Proof.
  induction 1 as [|t l Ht _ IH]; [done|].
  change (t :: l) with ([t] ++ l).
  rewrite omap_app, !fmap_app, IH. f_equal.
  simpl. rewrite row_of_cases. apply returned_pc in Ht.
  destruct (pc t) as [|[|[|[|]]]]; (done || lia).
Qed.

End SyncerFacts.

(** ** Schedules and the join barrier *)

Section ScheduleFacts.
Import Prober Aggregator Syncer Spec Examples.
Local Open Scope nat_scope.

Lemma perform_total a m :
  Forall record (summary m) →
  (∀ r, a = Append r → record r) →
  ∃ m', perform a m = Some m' ∧ Forall record (summary m').
Proof.
  intros Hrec Ha. destruct a as [c|r|d st]; simpl.
  - by eexists.
  - eexists. split; [done|]. simpl. apply Forall_app. split; [done|].
    apply Forall_singleton. by apply Ha.
  - destruct (updateStatus_total (summary m) d st Hrec)
      as (s' & -> & _ & Hrec').
    by eexists.
Qed.

Lemma next_append_record t r : next t = Some (Append r) → record r.
Proof.
  rewrite next_cases.
  destruct (pc t) as [|[|[|[|]]]]; intros [= <-]. apply initial_row_record.
Qed.

Lemma tick_pc t :
  job_of (tick t) = job_of t
  ∧ pc (tick t) = if decide (pc t < 4) then S (pc t) else pc t.
Proof.
  unfold tick. rewrite next_cases.
  destruct (pc t) as [|[|[|[|]]]] eqn:Hpc; simpl; rewrite ?Hpc; done.
Qed.

(** A scheduler's choice of a live index: the goroutine there makes its
    turn, in zero steps or in one, and nothing panics. *)
Lemma fire_tick i σ t :
  Forall record (summary (mem σ)) →
  threads σ !! i = Some t →
  ∃ σ',
    (fire i σ = Idle ∧ σ' = σ ∨ fire i σ = Next σ')
    ∧ rtc step σ σ'
    ∧ threads σ' = <[i := tick t]> (threads σ)
    ∧ Forall record (summary (mem σ')).
Proof.
  intros Hrec Hi. unfold fire, tick. rewrite Hi.
  destruct (next t) as [a|] eqn:Hnext.
  - destruct (perform_total a (mem σ) Hrec) as (m' & Hperf & Hrec').
    { intros r ->. by eapply next_append_record. }
    rewrite Hperf. eexists. split; [by right|].
    split; [|done]. apply rtc_once. by econstructor.
  - exists σ. split; [by left|]. split; [done|].
    split; [by rewrite list_insert_id|done].
Qed.

(** A choice of a dead index changes nothing. *)
Lemma fire_none i σ : threads σ !! i = None → fire i σ = Idle.
Proof. unfold fire. by intros ->. Qed.

Lemma run_schedule_app s1 s2 σ :
  run_schedule (s1 ++ s2) σ = run_schedule s1 σ ≫= run_schedule s2.
Proof.
  revert σ. induction s1 as [|i s1 IH]; intros σ; [done|].
  simpl. by destruct (fire i σ).
Qed.

(** Every schedule runs, without panic, along steps of the goroutines. *)
Lemma run_schedule_steps sched σ :
  Forall record (summary (mem σ)) →
  ∃ σ',
    run_schedule sched σ = Some σ'
    ∧ rtc step σ σ'
    ∧ Forall record (summary (mem σ'))
    ∧ length (threads σ') = length (threads σ).
Proof.
  revert σ. induction sched as [|i sched IH]; intros σ Hrec.
  { by exists σ. }
  simpl. destruct (threads σ !! i) as [t|] eqn:Hi.
  - destruct (fire_tick i σ t Hrec Hi)
      as (σ1 & Hfire & Hsteps & Hth & Hrec1).
    destruct (IH σ1 Hrec1) as (σ' & Hrun & Hsteps' & Hrec' & Hlen).
    exists σ'. split.
    { by destruct Hfire as [[-> ->]| ->]. }
    split; [by etrans|]. split; [done|].
    by rewrite Hlen, Hth, length_insert.
  - rewrite fire_none by done. apply IH, Hrec.
Qed.

(** One round from index [k] on: the goroutines from [k] on have made
    their turn. *)
Lemma run_round m : ∀ k σ,
  Forall record (summary (mem σ)) →
  k + m = length (threads σ) →
  ∃ σ',
    run_schedule (seq k m) σ = Some σ'
    ∧ rtc step σ σ'
    ∧ Forall record (summary (mem σ'))
    ∧ threads σ' = take k (threads σ) ++ (tick <$> drop k (threads σ)).
Proof.
  induction m as [|m IH]; intros k σ Hrec Hlen.
  - exists σ. split; [done|]. split; [done|]. split; [done|].
    rewrite take_ge, drop_ge by lia. by rewrite app_nil_r.
  - destruct (lookup_lt_is_Some_2 (threads σ) k) as [t Hi]; [lia|].
    destruct (fire_tick k σ t Hrec Hi)
      as (σ1 & Hfire & Hsteps & Hth & Hrec1).
    destruct (IH (S k) σ1 Hrec1) as (σ' & Hrun & Hsteps' & Hrec' & Hth').
    { rewrite Hth, length_insert. lia. }
    exists σ'. split.
    { simpl. by destruct Hfire as [[-> ->]| ->]. }
    split; [by etrans|]. split; [done|].
    rewrite Hth', Hth.
    rewrite (take_S_r _ k (tick t))
      by (apply list_lookup_insert_eq; by eapply lookup_lt_Some).
    rewrite take_insert_ge, drop_insert_lt by lia.
    rewrite (drop_S _ t k Hi), fmap_cons.
    by rewrite <- app_assoc.
Qed.

Lemma four_ticks_return t : returned (tick (tick (tick (tick t)))).
Proof.
  apply returned_pc.
  destruct (tick_pc t) as [_ H1].
  destruct (tick_pc (tick t)) as [_ H2].
  destruct (tick_pc (tick (tick t))) as [_ H3].
  destruct (tick_pc (tick (tick (tick t)))) as [_ H4].
  repeat case_decide; lia.
Qed.

(** The join barrier is passed, and then every goroutine has returned. *)
Lemma wait_finished σ :
  Forall record (summary (mem σ)) →
  ∃ σ', wait σ = Some σ' ∧ rtc step σ σ' ∧ finished σ'.
Proof.
  intros Hrec. unfold wait, round.
  set (n := length (threads σ)).
  destruct (run_round n 0 σ Hrec eq_refl) as (σ1 & R1 & S1 & Hrec1 & T1).
  rewrite take_0, drop_0 in T1. simpl in T1.
  assert (length (threads σ1) = n) as L1
    by by rewrite T1, length_fmap.
  destruct (run_round n 0 σ1 Hrec1 (eq_sym L1))
    as (σ2 & R2 & S2 & Hrec2 & T2).
  rewrite take_0, drop_0 in T2. simpl in T2.
  assert (length (threads σ2) = n) as L2
    by by rewrite T2, length_fmap.
  destruct (run_round n 0 σ2 Hrec2 (eq_sym L2))
    as (σ3 & R3 & S3 & Hrec3 & T3).
  rewrite take_0, drop_0 in T3. simpl in T3.
  assert (length (threads σ3) = n) as L3
    by by rewrite T3, length_fmap.
  destruct (run_round n 0 σ3 Hrec3 (eq_sym L3))
    as (σ4 & R4 & S4 & Hrec4 & T4).
  rewrite take_0, drop_0 in T4. simpl in T4.
  exists σ4. split; [|split].
  - rewrite run_schedule_app, R1. simpl.
    rewrite run_schedule_app, R2. simpl.
    rewrite run_schedule_app, R3. simpl. exact R4.
  - do 3 (etrans; [eassumption|]). done.
  - unfold finished. rewrite T4, T3, T2, T1.
    rewrite <- !list_fmap_compose. apply Forall_fmap, Forall_true.
    intros t. apply four_ticks_return.
Qed.

(** A run under any schedule ends in a state that is reachable and in
    which every goroutine has returned. *)
Lemma schedule_completes jobs sched :
  ∃ σ,
    run_schedule sched (init jobs) ≫= wait = Some σ
    ∧ reachable jobs σ ∧ finished σ.
Proof.
  destruct (run_schedule_steps sched (init jobs))
    as (σ1 & Hrun & Hsteps & Hrec & _); [constructor|].
  destruct (wait_finished σ1 Hrec) as (σ2 & Hwait & Hsteps' & Hfin).
  exists σ2. rewrite Hrun. split; [done|].
  split; [|done]. unfold reachable. by etrans.
Qed.

End ScheduleFacts.

(** ** The records of a run *)

Section RunFacts.
Import Prober Aggregator Syncer Spec Examples.
Local Open Scope nat_scope.

Lemma statuses_distinct :
  Pending ≠ Success ∧ Pending ≠ Failed
  ∧ Unknown ≠ Success ∧ Unknown ≠ Failed ∧ Unknown ≠ Pending.
Proof. by vm_compute. Qed.

(** With distinct directories, two goroutines of a run with the same
    directory are the same goroutine. *)
Lemma same_dir_same_goroutine (l : list goroutine) t t' :
  NoDup (dir <$> (job_of <$> l)) →
  t ∈ l → t' ∈ l → dir (job_of t') = dir (job_of t) → t' = t.
Proof.
  intros Hnodup [i Hi]%list_elem_of_lookup [j Hj]%list_elem_of_lookup Heq.
  assert (i = j) as ->.
  { apply (NoDup_lookup _ i j (dir (job_of t)) Hnodup).
    - by rewrite !list_lookup_fmap, Hi.
    - by rewrite !list_lookup_fmap, Hj, <- Heq. }
  congruence.
Qed.

(** The rows of a run that carry the path of a goroutine are the one row
    that its program counter stands for. *)
Lemma row_of_goroutine jobs σ t r :
  NoDup (dir <$> jobs) → reachable jobs σ → t ∈ threads σ →
  r ∈ summary (mem σ) ∧ path_of r = Some (dir (job_of t))
  ↔ row_of t = Some r.
Proof.
  intros Hnodup Hreach Ht.
  destruct (reachable_consistent jobs σ Hnodup Hreach) as [Hjobs Hsum].
  rewrite <- Hjobs in Hnodup. rewrite Hsum. split.
  - intros [(t' & Ht' & Hrow)%list_elem_of_omap Hpath].
    destruct (row_of_record _ _ Hrow) as [_ Hpath'].
    rewrite Hpath' in Hpath. injection Hpath as Hdir.
    by rewrite <- (same_dir_same_goroutine _ t t' Hnodup Ht Ht' Hdir).
  - intros Hrow. split; [|by apply row_of_record].
    apply list_elem_of_omap. by exists t.
Qed.

(** Every row of a run is the row of one of its goroutines. *)
Lemma row_has_goroutine jobs σ r :
  NoDup (dir <$> jobs) → reachable jobs σ → r ∈ summary (mem σ) →
  ∃ t, t ∈ threads σ ∧ row_of t = Some r.
Proof.
  intros Hnodup Hreach Hr.
  destruct (reachable_consistent jobs σ Hnodup Hreach) as [_ Hsum].
  rewrite Hsum in Hr. by apply list_elem_of_omap in Hr.
Qed.

Lemma pulls_counted (d : gostring) (jobs : list job) :
  length (filter (λ c, c = GitPull d)
            (concat ((λ j, [GitRemoteV (dir j); GitPull (dir j)]) <$> jobs)))
  = length (filter (λ j, dir j = d) jobs).
Proof.
  induction jobs as [|j jobs IH]; [done|].
  rewrite fmap_cons, concat_cons, filter_app, length_app, IH.
  rewrite (filter_cons (λ j, dir j = d)).
  rewrite filter_cons_False by done. rewrite filter_cons.
  destruct (decide (dir j = d)) as [->|Hne].
  - by rewrite decide_True.
  - rewrite decide_False; [done|]. by intros [= ?].
Qed.

Lemma no_job_for_dir (d : gostring) (jobs : list job) :
  d ∉ dir <$> jobs → filter (λ j, dir j = d) jobs = [].
Proof.
  induction jobs as [|j jobs IH]; intros Hnot; [done|].
  rewrite fmap_cons in Hnot. apply not_elem_of_cons in Hnot as [Hne Hnot].
  rewrite filter_cons_False by (intros Heq; by apply Hne).
  by apply IH.
Qed.

Lemma one_job_for_dir (j : job) (jobs : list job) :
  NoDup (dir <$> jobs) → j ∈ jobs →
  length (filter (λ j', dir j' = dir j) jobs) = 1.
Proof.
  induction jobs as [|j' jobs IH]; intros Hnodup Hj; [by inversion Hj|].
  rewrite fmap_cons in Hnodup.
  apply NoDup_cons in Hnodup as [Hnot Hnodup].
  apply elem_of_cons in Hj as [->|Hj].
  - rewrite filter_cons_True by done. simpl.
    by rewrite no_job_for_dir.
  - rewrite filter_cons_False; [by apply IH|].
    intros Heq. apply Hnot. rewrite Heq. by apply list_elem_of_fmap_2.
Qed.

Lemma run_schedule_reachable jobs sched σ :
  run_schedule sched (init jobs) = Some σ → reachable jobs σ.
Proof.
  intros Hrun.
  destruct (run_schedule_steps sched (init jobs))
    as (σ' & Hrun' & Hsteps & _); [constructor|].
  rewrite Hrun in Hrun'. by injection Hrun' as ->.
Qed.

(** *** The sample run *)

Lemma nodup_ab : NoDup (dir <$> [job_a; job_b]).
Proof. apply (bool_decide_unpack _). by vm_compute. Qed.

Lemma reachable_ab : reachable [job_a; job_b] finished_ab.
Proof. apply (run_schedule_reachable _ interleaved). by vm_compute. Qed.

Lemma finished_ab_returned : finished finished_ab.
Proof. repeat constructor. Qed.

Lemma reachable_appended_a : reachable [job_a] appended_a.
Proof. apply (run_schedule_reachable _ [0; 0]). by vm_compute. Qed.

(** *** Status values *)

(** C3 as stated fails: the row that the goroutine of a repository with
    a failing probe appends holds the status ["Unknown"], which is none
    of ["Pending"], ["Success"], ["Failed"]. *)
Lemma status_unknown_at_discovery : ¬ status_always_listed.
Proof.
  intros Hlisted.
  destruct statuses_distinct as (_ & _ & HS & HF & HP).
  destruct (Hlisted [job_a] appended_a [str "a"; []; Unknown] Unknown)
    as [E|[E|E]]; try done.
  - apply reachable_appended_a.
  - by left.
Qed.

(** C3 (amended): in a run over repositories with distinct directories
    every status in the summary is one of ["Pending"], ["Unknown"],
    ["Success"], ["Failed"].  A goroutine has no row before its append;
    from its append to its [updateStatus] it has one row, with the
    initial status, ["Pending"] or ["Unknown"]; after its [updateStatus]
    it has one row, with the final status, ["Success"] or ["Failed"],
    which differs from the initial one.  A step moves one goroutine one
    action forward, so the status of a row is written once after the
    append. *)
Theorem status_lifecycle (jobs : list job) (σ : state) :
  NoDup (dir <$> jobs) → reachable jobs σ →
  (∀ r st, r ∈ summary (mem σ) → status_of r = Some st →
      st = Pending ∨ st = Unknown ∨ st = Success ∨ st = Failed)
  ∧ (∀ t, t ∈ threads σ →
      (pc t < 2 →
        ∀ r, r ∈ summary (mem σ) → path_of r ≠ Some (dir (job_of t)))
      ∧ (2 ≤ pc t < 4 →
          ∀ r, r ∈ summary (mem σ) ∧ path_of r = Some (dir (job_of t))
               ↔ r = initial_row (job_of t))
      ∧ (4 ≤ pc t →
          ∀ r, r ∈ summary (mem σ) ∧ path_of r = Some (dir (job_of t))
               ↔ r = final_row (job_of t))
      ∧ (status_of (initial_row (job_of t)) = Some Pending
         ∨ status_of (initial_row (job_of t)) = Some Unknown)
      ∧ (status_of (final_row (job_of t)) = Some Success
         ∨ status_of (final_row (job_of t)) = Some Failed)
      ∧ status_of (initial_row (job_of t))
        ≠ status_of (final_row (job_of t)))
  ∧ (∀ σ', step σ σ' →
      ∃ i t, threads σ !! i = Some t
             ∧ threads σ' = <[i := advance t]> (threads σ)).
Proof.
  intros Hnodup Hreach.
  destruct statuses_distinct as (HPS & HPF & HUS & HUF & _).
  assert (∀ j, status_of (final_row j) = Some Success
               ∨ status_of (final_row j) = Some Failed) as Hfinal.
  { intros j. unfold final_row, status_of. simpl.
    destruct (final_status_cases j) as [-> | ->]; auto. }
  split; [|split].
  - intros r st Hr Hst.
    destruct (row_has_goroutine jobs σ r Hnodup Hreach Hr)
      as (t & _ & Hrow).
    rewrite row_of_cases in Hrow.
    destruct (pc t) as [|[|[|[|]]]]; try done;
      injection Hrow as <-.
    1,2: destruct (initial_status_cases (job_of t)) as [E|E];
      rewrite E in Hst; injection Hst as <-; auto.
    all: destruct (Hfinal (job_of t)) as [E|E];
      rewrite E in Hst; injection Hst as <-; auto.
  - intros t Ht.
    pose proof (λ r, row_of_goroutine jobs σ t r Hnodup Hreach Ht) as Hrow.
    rewrite row_of_cases in Hrow.
    split; [|split; [|split; [|split; [|split]]]].
    + intros Hpc r Hr Hpath.
      destruct (pc t) as [|[|]]; [| |lia];
        discriminate (proj1 (Hrow r) (conj Hr Hpath)).
    + intros Hpc r. rewrite Hrow.
      destruct (pc t) as [|[|[|[|]]]]; try lia;
        split; congruence.
    + intros Hpc r. rewrite Hrow.
      destruct (pc t) as [|[|[|[|]]]]; try lia.
      split; congruence.
    + apply initial_status_cases.
    + apply Hfinal.
    + destruct (initial_status_cases (job_of t)) as [-> | ->];
        destruct (Hfinal (job_of t)) as [-> | ->]; congruence.
  - intros σ' [σ0 i t a m' Hi _ _]. by exists i, t.
Qed.

Lemma status_lifecycle_witness :
  NoDup (dir <$> [job_a; job_b])
  ∧ reachable [job_a; job_b] finished_ab
  ∧ ∀ r st, r ∈ summary (mem finished_ab) → status_of r = Some st →
      st = Pending ∨ st = Unknown ∨ st = Success ∨ st = Failed.
Proof.
  split; [exact nodup_ab|]. split; [exact reachable_ab|].
  exact (proj1 (status_lifecycle _ _ nodup_ab reachable_ab)).
Defined.

(** *** Outcome of the pull *)

(** C4: once a goroutine has returned, the one row with its directory
    holds ["Failed"] when its pull returned an error and ["Success"] when
    it did not; and once all have returned, every row of the summary
    holds ["Success"] or ["Failed"]. *)
Theorem pull_outcome_recorded (jobs : list job) (σ : state) :
  NoDup (dir <$> jobs) → reachable jobs σ →
  (∀ t, t ∈ threads σ → returned t →
      final_row (job_of t) ∈ summary (mem σ)
      ∧ (∀ r, r ∈ summary (mem σ) →
              path_of r = Some (dir (job_of t)) →
              r = final_row (job_of t))
      ∧ status_of (final_row (job_of t))
        = Some (if pull_err (job_of t) then Failed else Success))
  ∧ (finished σ →
      ∀ r, r ∈ summary (mem σ) →
           status_of r = Some Success ∨ status_of r = Some Failed).
Proof.
  intros Hnodup Hreach. split.
  - intros t Ht Hret. apply returned_pc in Hret.
    pose proof (λ r, row_of_goroutine jobs σ t r Hnodup Hreach Ht) as Hrow.
    rewrite row_of_cases in Hrow.
    destruct (pc t) as [|[|[|[|]]]]; try lia.
    split; [|split; [|done]].
    + by apply (proj2 (Hrow _)).
    + intros r Hr Hpath. by injection (proj1 (Hrow r) (conj Hr Hpath)).
  - intros Hfin r Hr.
    destruct (row_has_goroutine jobs σ r Hnodup Hreach Hr)
      as (t & Ht & Hrow).
    unfold finished in Hfin. rewrite Forall_forall in Hfin.
    pose proof (proj1 (returned_pc t) (Hfin t Ht)) as Hpc.
    rewrite row_of_cases in Hrow.
    destruct (pc t) as [|[|[|[|]]]]; try lia.
    injection Hrow as <-. unfold final_row, status_of. simpl.
    destruct (final_status_cases (job_of t)) as [-> | ->]; auto.
Qed.

Lemma pull_outcome_recorded_witness :
  NoDup (dir <$> [job_a; job_b])
  ∧ reachable [job_a; job_b] finished_ab
  ∧ [str "b"; str "https://host/repo.git"; Failed]
    ∈ summary (mem finished_ab).
Proof.
  split; [exact nodup_ab|]. split; [exact reachable_ab|].
  refine (proj1 (proj1 (pull_outcome_recorded _ _ nodup_ab reachable_ab)
                   (Go job_b 4) _ _)).
  - right. left.
  - apply returned_pc. simpl. lia.
Defined.

(** *** One pull per repository *)

(** C5: when all goroutines of a run have returned, the subprocesses
    that were run are, in some order, one probe and one pull for each
    job; a directory was pulled as many times as it was discovered
    (once, when the directories are distinct).  What the probe answered
    does not enter: the program of a goroutine holds the pull whatever
    [getGitStatus] returns. *)
Theorem pull_runs_once (jobs : list job) (σ : state) :
  reachable jobs σ → finished σ →
  trace (mem σ)
    ≡ₚ concat ((λ j, [GitRemoteV (dir j); GitPull (dir j)]) <$> jobs)
  ∧ (∀ d, length (filter (λ c, c = GitPull d) (trace (mem σ)))
          = length (filter (λ j, dir j = d) jobs))
  ∧ (NoDup (dir <$> jobs) →
      ∀ j, j ∈ jobs →
           length (filter (λ c, c = GitPull (dir j)) (trace (mem σ))) = 1)
  ∧ (∀ j, commands_of (pullRepository j)
          = [GitRemoteV (dir j); GitPull (dir j)]).
Proof.
  intros Hreach Hfin.
  pose proof (reachable_outstanding jobs σ Hreach) as Hout.
  rewrite finished_outstanding in Hout by done.
  assert (∀ d, length (filter (λ c, c = GitPull d) (trace (mem σ)))
               = length (filter (λ j, dir j = d) jobs)) as Hcount.
  { intros d. rewrite Hout. apply pulls_counted. }
  split; [done|]. split; [done|]. split.
  - intros Hnodup j Hj. rewrite Hcount. by apply one_job_for_dir.
  - intros j. unfold pullRepository. by destruct (getGitStatus _).
Qed.

Lemma pull_runs_once_witness :
  reachable [job_a; job_b] finished_ab
  ∧ finished finished_ab
  ∧ length (filter (λ c, c = GitPull (str "a")) (trace (mem finished_ab)))
    = length (filter (λ j, dir j = str "a") [job_a; job_b]).
Proof.
  split; [exact reachable_ab|]. split; [exact finished_ab_returned|].
  exact (proj1 (proj2 (pull_runs_once _ _ reachable_ab
                         finished_ab_returned)) (str "a")).
Defined.

(** *** No lost and no duplicate record *)

(** C8: for repositories with distinct directories, however the
    goroutines interleave, the summary after all have returned holds
    one row per repository: as many rows as jobs, with distinct paths,
    and they are the final rows of the jobs in some order.  Under every
    schedule the run passes the join barrier, without panic. *)
Theorem concurrent_syncs_keep_every_record (jobs : list job) :
  NoDup (dir <$> jobs) →
  (∀ σ, reachable jobs σ → finished σ →
      length (summary (mem σ)) = length jobs
      ∧ NoDup (path_of <$> summary (mem σ))
      ∧ summary (mem σ) ≡ₚ final_row <$> jobs)
  ∧ (∀ sched, ∃ σ,
        run_schedule sched (init jobs) ≫= wait = Some σ
        ∧ reachable jobs σ ∧ finished σ).
Proof.
  intros Hnodup. split; [|intros sched; apply schedule_completes].
  intros σ Hreach Hfin.
  destruct (reachable_consistent jobs σ Hnodup Hreach) as [Hjobs Hsum].
  rewrite finished_rows, Hjobs in Hsum by done.
  split; [by rewrite Hsum, length_fmap|]. split; [|done].
  rewrite Hsum, <- list_fmap_compose.
  assert (path_of ∘ final_row <$> jobs = Some <$> (dir <$> jobs)) as ->.
  { rewrite <- list_fmap_compose. by apply list_fmap_ext. }
  by apply (NoDup_fmap_2 Some).
Qed.

Lemma concurrent_syncs_keep_every_record_witness :
  NoDup (dir <$> [job_a; job_b])
  ∧ reachable [job_a; job_b] finished_ab
  ∧ finished finished_ab
  ∧ length (summary (mem finished_ab)) = 2.
Proof.
  split; [exact nodup_ab|]. split; [exact reachable_ab|].
  split; [exact finished_ab_returned|].
  exact (proj1 (proj1 (concurrent_syncs_keep_every_record _ nodup_ab)
                  finished_ab reachable_ab finished_ab_returned)).
Defined.

End RunFacts.

(** ** Exit code *)

Section CliFacts.
Import Prober Aggregator FilePath Walker Syncer Cli Spec Examples.
Local Open Scope nat_scope.

(** [run] returns for every directory argument: the walk does not panic
    and the goroutines pass the join barrier, whatever git answers. *)
Lemma run_returns (w : world) (dir : gostring) (more : list gostring) :
  ∃ r, run w (dir :: more) = Some r.
Proof.
  unfold run.
  destruct (Walk_visit_returns dir (tree_at w dir) []) as [started ->].
  destruct (schedule_completes (job_for w <$> started) (schedule w))
    as (σ & Hrun & _).
  destruct (run_schedule _ _) as [σ1|]; [|done]. simpl in *.
  rewrite Hrun. by eexists.
Qed.

End CliFacts.

(** * Further properties *)

(** ** What the walk starts *)

Section DiscoveryFacts.
Import FilePath Walker Discovery Spec Examples.

(** The walk function's answer on a tree: the goroutines of [found] are
    added, and the error is [SkipDir] on a readable [.git] directory and
    [nil] otherwise. *)
Lemma walk_visit_found n : ∀ path g,
  walk visit path n g =
    Ret (g ++ found path n)
        (match n with
         | Directory name false _ =>
             if bool_decide (name = dotgit) then Some SkipDir else None
         | _ => None
         end).
Proof.
  induction n as [name|name|name unreadable entries IH]
    using node_induction; intros path g.
  - simpl. by rewrite app_nil_r.
  - simpl. by rewrite app_nil_r.
  - simpl. destruct unreadable; simpl; [by rewrite app_nil_r|].
    destruct (bool_decide (name = dotgit)); [done|]. simpl.
    revert g. induction IH as [|e entries He _ IHes]; intros g.
    { simpl. by rewrite app_nil_r. }
    simpl. rewrite app_assoc, <- IHes.
    destruct e as [ename|ename|ename unreadable es].
    + simpl. by rewrite app_nil_r.
    + simpl. by rewrite app_nil_r.
    + rewrite He. destruct unreadable; [done|].
      by destruct (bool_decide (ename = dotgit)).
Qed.

(** The walk of [run], from no goroutines. *)
Lemma Walk_visit_found (root : gostring) (n : node) :
  Walk visit root n [] = Ret (found root n) None.
Proof.
  unfold Walk. rewrite walk_visit_found. simpl.
  destruct n as [name|name|name [|] entries]; try done.
  by destruct (bool_decide (name = dotgit)).
Qed.

(** X1: [filepath.Walk] with [visit] returns [nil] and does not panic on
    any tree, whatever entries cannot be read; it keeps the goroutines
    started before and adds those of [found], in this order. *)
Theorem Walk_visit_starts_found (root : gostring) (n : node) (g : spawned) :
  Walk visit root n g = Ret (g ++ found root n) None.
Proof.
  unfold Walk. rewrite walk_visit_found.
  destruct n as [name|name|name [|] entries]; try done.
  by destruct (bool_decide (name = dotgit)).
Qed.

End DiscoveryFacts.

(** ** More on the Status Prober *)

Section ProberMore.
Import GoStrings Prober Spec Examples.

Lemma first_line_idempotent out : first_line (first_line out) = first_line out.
Proof.
  induction out as [|c out IH]; [done|]. simpl.
  destruct (c =? newline) eqn:Hc; [done|]. simpl. by rewrite Hc, IH.
Qed.

(** X3: [getGitStatus] reads the first line of the output only: the
    answer for an output is the answer for its first line alone, so two
    outputs with the same first line get the same answer. *)
Theorem getGitStatus_first_line_only (out out' : gostring) :
  getGitStatus (CmdOutput out false)
    = getGitStatus (CmdOutput (first_line out) false)
  ∧ (first_line out = first_line out' →
     getGitStatus (CmdOutput out false) = getGitStatus (CmdOutput out' false)).
Proof.
  split.
  - by rewrite !getGitStatus_fields, first_line_idempotent.
  - intros Heq. by rewrite !getGitStatus_fields, Heq.
Qed.

Lemma getGitStatus_first_line_only_witness :
  first_line remote_listing = first_line (first_line remote_listing)
  ∧ getGitStatus (CmdOutput remote_listing false)
    = getGitStatus (CmdOutput (first_line remote_listing) false).
Proof.
  assert (first_line remote_listing = first_line (first_line remote_listing))
    as Heq by by vm_compute.
  split; [exact Heq|].
  exact (proj2 (getGitStatus_first_line_only remote_listing
                  (first_line remote_listing)) Heq).
Defined.

(** X4: [getGitStatus] has two kinds of answer only: a remote that is not
    empty with ["Pending"], or the empty remote with ["Unknown"]. *)
Theorem getGitStatus_answers (res : cmd_output) :
  (∃ remote, getGitStatus res = (remote, Pending) ∧ remote ≠ [])
  ∨ getGitStatus res = ([], Unknown).
Proof.
  destruct res as [out [|]]; [by right|].
  rewrite getGitStatus_fields.
  pose proof (Fields_words (first_line out)) as Hwords.
  destruct (Fields (first_line out)) as [|a [|b [|c [|d l]]]];
    try by right.
  left. exists b. split; [done|].
  apply Forall_cons in Hwords as [_ Hwords].
  apply Forall_cons in Hwords as [Hb _]. apply Hb.
Qed.

End ProberMore.

(** ** More on the Result Aggregator *)

Section AggregatorMore.
Import Prober Aggregator Syncer Spec Examples.

(** X5: of two [updateStatus] calls for the same path the later one
    decides: on records, updating to [st1] and then to [st2] is updating to
    [st2], and updating twice to the same status is updating once. *)
Theorem updateStatus_last_write_wins
        (summary : list row) (dir st1 st2 : gostring) :
  Forall record summary →
  updateStatus summary dir st1 ≫= (λ s1, updateStatus s1 dir st2)
    = updateStatus summary dir st2.
Proof.
  induction 1 as [|r summary Hr _ IH]; [done|].
  destruct (record_cells r Hr) as (p & u & st & ->). simpl.
  destruct (decide (p = dir)) as [->|Hne]; simpl.
  - by rewrite decide_True.
  - rewrite <- IH.
    destruct (updateStatus summary dir st1) as [s1|]; [|done].
    simpl. by rewrite decide_False.
Qed.

Lemma updateStatus_last_write_wins_witness :
  Forall record (summary (mem finished_ab))
  ∧ updateStatus (summary (mem finished_ab)) (str "b") Pending
      ≫= (λ s1, updateStatus s1 (str "b") Failed)
    = updateStatus (summary (mem finished_ab)) (str "b") Failed.
Proof.
  assert (Forall record (summary (mem finished_ab))) as Hrec
    by (repeat constructor).
  split; [exact Hrec|].
  exact (updateStatus_last_write_wins _ (str "b") Pending Failed Hrec).
Defined.

(** X6: whenever [updateStatus] returns, it has added, removed and
    reordered no row and has changed no path, no remote and no row
    length: the path column, the remote column and the row lengths are
    those before the call. *)
Theorem updateStatus_keeps_columns
        (summary summary' : list row) (dir status : gostring) :
  updateStatus summary dir status = Some summary' →
  path_of <$> summary' = path_of <$> summary
  ∧ remote_of <$> summary' = remote_of <$> summary
  ∧ length <$> summary' = length <$> summary.
Proof.
  revert summary'. induction summary as [|r summary IH]; intros summary'.
  - by intros [= <-].
  - simpl. destruct (r !! 0%nat) as [cell0|] eqn:Hcell; [|done].
    destruct (decide (cell0 = dir)) as [->|Hne].
    + destruct (decide (2 < length r)%nat) as [Hlen|]; [|done].
      intros [= <-]. rewrite !fmap_cons.
      by destruct r as [|a [|b [|c r]]]; simpl in *; try lia.
    + destruct (updateStatus summary dir status) as [s'|]; [|done].
      intros [= <-]. destruct (IH s' eq_refl) as (E1 & E2 & E3).
      by rewrite !fmap_cons, E1, E2, E3.
Qed.

Lemma updateStatus_keeps_columns_witness :
  updateStatus (summary (mem finished_ab)) (str "a") Pending
    = Some [ [str "b"; str "https://host/repo.git"; Failed];
             [str "a"; []; Pending] ]
  ∧ path_of <$> [ [str "b"; str "https://host/repo.git"; Failed];
                  [str "a"; []; Pending] ]
    = path_of <$> summary (mem finished_ab).
Proof.
  assert (updateStatus (summary (mem finished_ab)) (str "a") Pending
          = Some [ [str "b"; str "https://host/repo.git"; Failed];
                   [str "a"; []; Pending] ]) as Hupd by by vm_compute.
  split; [exact Hupd|].
  exact (proj1 (updateStatus_keeps_columns _ _ _ _ Hupd)).
Defined.

(** X7: [updateStatus] panics exactly when the loop, before it has met a
    row with the path, meets a row without cells, or when the first row
    with the path has fewer than three cells. *)
Theorem updateStatus_panics_iff (summary : list row) (dir status : gostring) :
  updateStatus summary dir status = None
  ↔ ∃ pre r post,
      summary = pre ++ r :: post
      ∧ Forall (λ r', ∃ p, r' !! 0%nat = Some p ∧ p ≠ dir) pre
      ∧ (r = [] ∨ (r !! 0%nat = Some dir ∧ (length r ≤ 2)%nat)).
Proof.
  induction summary as [|r summary IH].
  - split; [done|]. intros (pre & r & post & Heq & _). by destruct pre.
  - simpl. destruct (r !! 0%nat) as [cell0|] eqn:Hcell.
    + destruct (decide (cell0 = dir)) as [->|Hne].
      * destruct (decide (2 < length r)%nat) as [Hlen|Hlen].
        -- split; [done|]. intros (pre & r' & post & Heq & Hpre & Hr').
           destruct pre as [|r0 pre]; simplify_eq/=.
           ++ destruct Hr' as [->|[_ ?]]; [done|lia].
           ++ apply Forall_cons in Hpre as [(p & Hp & Hne) _]. congruence.
        -- split; [intros _|done]. exists [], r, summary.
           split; [done|]. split; [constructor|]. right. split; [done|lia].
      * destruct (updateStatus summary dir status) as [s'|] eqn:Hupd; simpl.
        -- split; [done|]. intros (pre & r' & post & Heq & Hpre & Hr').
           destruct pre as [|r0 pre]; simplify_eq/=.
           ++ destruct Hr' as [->|[? _]]; [done|congruence].
           ++ apply Forall_cons in Hpre as [_ Hpre].
              assert (Some s' = None) as Hbad; [|done].
              apply IH. by exists pre, r', post.
        -- split; [intros _|done].
           destruct (proj1 IH eq_refl) as (pre & r' & post & -> & Hpre & Hr').
           exists (r :: pre), r', post. split; [done|].
           split; [|done]. apply Forall_cons. split; [by exists cell0|done].
    + split; [intros _|done]. exists [], r, summary.
      split; [done|]. split; [constructor|]. left. by destruct r.
Qed.

End AggregatorMore.

(** ** More on the goroutines *)

Section RunMore.
Import Prober Aggregator Syncer Spec Examples.
Local Open Scope nat_scope.

(** The cells that no call writes after the append. *)
Lemma updateStatus_fixed_cells
      (summary summary' : list row) (dir status : gostring) :
  updateStatus summary dir status = Some summary' →
  (λ r, (path_of r, remote_of r)) <$> summary'
    = (λ r, (path_of r, remote_of r)) <$> summary.
Proof.
  revert summary'. induction summary as [|r summary IH]; intros summary'.
  - by intros [= <-].
  - simpl. destruct (r !! 0) as [cell0|] eqn:Hcell; [|done].
    destruct (decide (cell0 = dir)) as [->|Hne].
    + destruct (decide (2 < length r)) as [Hlen|]; [|done].
      intros [= <-]. rewrite !fmap_cons. f_equal.
      by destruct r as [|a [|b [|c r]]]; simpl in *; try lia.
    + destruct (updateStatus summary dir status) as [s'|]; [|done].
      intros [= <-]. by rewrite !fmap_cons, (IH s' eq_refl).
Qed.

(** X8: records are never removed, reordered or given another path or
    remote: along any steps of the goroutines the summary keeps its rows'
    paths and remotes in place and adds rows at its end only. *)
Theorem summary_only_grows (σ σ' : state) :
  rtc step σ σ' →
  (λ r, (path_of r, remote_of r)) <$> summary (mem σ)
    `prefix_of` (λ r, (path_of r, remote_of r)) <$> summary (mem σ').
Proof.
  induction 1 as [σ|σ1 σ2 σ3 Hstep _ IH]; [done|].
  etrans; [|exact IH]. clear IH.
  destruct Hstep as [σ i t a m' _ _ Hperf]. simpl.
  destruct a as [c|r|d st]; simpl in Hperf.
  - by injection Hperf as <-.
  - injection Hperf as <-. simpl. rewrite fmap_app. by eexists.
  - destruct (updateStatus (summary (mem σ)) d st) as [s'|] eqn:Hupd; [|done].
    injection Hperf as <-. simpl.
    by rewrite (updateStatus_fixed_cells _ _ _ _ Hupd).
Qed.

Lemma summary_only_grows_witness :
  rtc step appended_a
      (State (Shared [[str "a"; []; Unknown]]
                     [GitRemoteV (str "a"); GitPull (str "a")])
             [Go job_a 3])
  ∧ (λ r, (path_of r, remote_of r)) <$> summary (mem appended_a)
      `prefix_of` [(Some (str "a"), Some [])].
Proof.
  assert (rtc step appended_a
            (State (Shared [[str "a"; []; Unknown]]
                           [GitRemoteV (str "a"); GitPull (str "a")])
                   [Go job_a 3])) as Hsteps.
  { apply rtc_once.
    by apply (step_goroutine appended_a 0 (Go job_a 2)
                (Exec (GitPull (str "a")))). }
  split; [exact Hsteps|].
  exact (summary_only_grows _ _ Hsteps).
Defined.

(** The commands of distinct directories are distinct. *)
Lemma commands_NoDup (jobs : list job) :
  NoDup (dir <$> jobs) →
  NoDup (concat ((λ j, [GitRemoteV (dir j); GitPull (dir j)]) <$> jobs)).
Proof.
  induction jobs as [|j jobs IH]; intros Hnodup; [constructor|].
  rewrite fmap_cons in Hnodup. apply NoDup_cons in Hnodup as [Hnot Hnodup].
  rewrite fmap_cons, concat_cons. simpl.
  assert (∀ c, c ∈ concat ((λ j, [GitRemoteV (dir j); GitPull (dir j)])
                            <$> jobs) →
               ∃ j', j' ∈ jobs
                     ∧ (c = GitRemoteV (dir j') ∨ c = GitPull (dir j')))
    as Hin.
  { clear. induction jobs as [|j' jobs IH]; intros c; [by intros ?%elem_of_nil|].
    rewrite fmap_cons, concat_cons. simpl.
    rewrite !elem_of_cons. intros [->|[->|Hc]].
    - exists j'. split; [by left|by left].
    - exists j'. split; [by left|by right].
    - destruct (IH c Hc) as (j0 & Hj0 & Hc0). exists j0. split; [by right|done]. }
  apply NoDup_cons. split.
  - rewrite elem_of_cons. intros [?|(j' & Hj' & [Heq|Heq])%Hin]; try done.
    injection Heq as Heq. apply Hnot. rewrite Heq.
    by apply list_elem_of_fmap_2.
  - apply NoDup_cons. split; [|by apply IH].
    intros (j' & Hj' & [Heq|Heq])%Hin; [done|].
    injection Heq as Heq. apply Hnot. rewrite Heq.
    by apply list_elem_of_fmap_2.
Qed.

Lemma pending_command_dir t c :
  c ∈ pending_commands t →
  c = GitRemoteV (dir (job_of t)) ∨ c = GitPull (dir (job_of t)).
Proof.
  rewrite pending_cases.
  destruct (pc t) as [|[|[|]]]; rewrite ?elem_of_cons, ?elem_of_nil;
    intuition.
Qed.

(** With distinct directories, the trace tells where a goroutine stands:
    its probe is in the trace from its first action on and its pull from
    its third action on. *)
Lemma trace_of_goroutine jobs σ t :
  NoDup (dir <$> jobs) → reachable jobs σ → t ∈ threads σ →
  (GitRemoteV (dir (job_of t)) ∈ trace (mem σ) ↔ 1 ≤ pc t)
  ∧ (GitPull (dir (job_of t)) ∈ trace (mem σ) ↔ 3 ≤ pc t).
Proof.
  intros Hnodup Hreach Ht.
  pose proof (reachable_outstanding jobs σ Hreach) as Hout.
  pose proof (commands_NoDup jobs Hnodup) as Hall.
  rewrite <- Hout in Hall. unfold outstanding in Hall, Hout.
  apply NoDup_app in Hall as (_ & Hdisj & _).
  destruct (reachable_consistent jobs σ Hnodup Hreach) as [Hjobs _].
  rewrite <- Hjobs in Hnodup.
  assert (∀ c, c ∈ [GitRemoteV (dir (job_of t)); GitPull (dir (job_of t))] →
               c ∈ trace (mem σ) ∨ c ∈ pending_commands t) as Hsplit.
  { intros c Hc.
    assert (c ∈ trace (mem σ) ++ concat (pending_commands <$> threads σ))
      as Hin.
    { rewrite Hout, <- Hjobs, <- list_fmap_compose.
      apply list_elem_of_In, in_concat.
      exists [GitRemoteV (dir (job_of t)); GitPull (dir (job_of t))].
      split; [|by apply list_elem_of_In].
      apply list_elem_of_In. by apply (list_elem_of_fmap_2' _ _ t). }
    apply elem_of_app in Hin as [Hin|Hin]; [by left|]. right.
    apply list_elem_of_In, in_concat in Hin as (cs & Hcs & Hc').
    apply list_elem_of_In, list_elem_of_fmap in Hcs as (t' & -> & Ht').
    apply list_elem_of_In in Hc'.
    assert (dir (job_of t') = dir (job_of t)) as Hdir.
    { rewrite !elem_of_cons, elem_of_nil in Hc.
      destruct (pending_command_dir _ _ Hc') as [E|E];
        destruct Hc as [Hc|[Hc|[]]]; congruence. }
    by rewrite <- (same_dir_same_goroutine _ t t' Hnodup Ht Ht' Hdir). }
  assert (∀ c, c ∈ pending_commands t → c ∉ trace (mem σ)) as Hexcl.
  { intros c Hc Htr. apply (Hdisj c Htr).
    apply list_elem_of_In, in_concat. exists (pending_commands t).
    split; apply list_elem_of_In; [by apply list_elem_of_fmap_2|done]. }
  rewrite pending_cases in Hsplit, Hexcl.
  split; split.
  - intros Htr. destruct (pc t) as [|n]; [|lia].
    destruct (Hexcl (GitRemoteV (dir (job_of t)))); [by left|done].
  - intros Hpc. destruct (Hsplit (GitRemoteV (dir (job_of t)))) as [?|Hp];
      [by left|done|].
    destruct (pc t) as [|[|[|]]]; try lia;
      rewrite ?elem_of_cons, ?elem_of_nil in Hp; intuition discriminate.
  - intros Htr.
    destruct (pc t) as [|[|[|n]]]; try lia;
      destruct (Hexcl (GitPull (dir (job_of t))));
      rewrite ?elem_of_cons; auto.
  - intros Hpc. destruct (Hsplit (GitPull (dir (job_of t)))) as [?|Hp];
      [rewrite !elem_of_cons; auto|done|].
    destruct (pc t) as [|[|[|]]]; try lia;
      rewrite ?elem_of_cons, ?elem_of_nil in Hp; intuition discriminate.
Qed.

(** X9: in a run over distinct directories the steps of a repository come
    in the order of the program: when its row is in the summary its probe
    has been run, and when its pull has been run its row is in the
    summary. *)
Theorem row_between_probe_and_pull (jobs : list job) (σ : state)
        (t : goroutine) :
  NoDup (dir <$> jobs) → reachable jobs σ → t ∈ threads σ →
  (∀ r, r ∈ summary (mem σ) → path_of r = Some (dir (job_of t)) →
        GitRemoteV (dir (job_of t)) ∈ trace (mem σ))
  ∧ (GitPull (dir (job_of t)) ∈ trace (mem σ) →
     ∃ r, r ∈ summary (mem σ) ∧ path_of r = Some (dir (job_of t))).
Proof.
  intros Hnodup Hreach Ht.
  destruct (trace_of_goroutine jobs σ t Hnodup Hreach Ht) as [Hprobe Hpull].
  pose proof (λ r, row_of_goroutine jobs σ t r Hnodup Hreach Ht) as Hrow.
  rewrite row_of_cases in Hrow. split.
  - intros r Hr Hpath. apply Hprobe.
    pose proof (proj1 (Hrow r) (conj Hr Hpath)) as Hsome.
    destruct (pc t) as [|[|]]; [done..|lia].
  - intros Hpc%Hpull.
    destruct (pc t) as [|[|[|[|]]]]; try lia; eexists; by apply Hrow.
Qed.

Lemma row_between_probe_and_pull_witness :
  NoDup (dir <$> [job_a; job_b])
  ∧ reachable [job_a; job_b] finished_ab
  ∧ Go job_a 4 ∈ threads finished_ab
  ∧ GitRemoteV (str "a") ∈ trace (mem finished_ab).
Proof.
  assert (Go job_a 4 ∈ threads finished_ab) as Ht by by left.
  split; [exact nodup_ab|]. split; [exact reachable_ab|].
  split; [exact Ht|].
  refine (proj1 (row_between_probe_and_pull _ _ _ nodup_ab reachable_ab Ht)
            [str "a"; []; Success] _ _).
  - right. left.
  - reflexivity.
Defined.

End RunMore.

(** ** Rows, goroutines and the table *)

Section TableFacts.
Import Prober Aggregator FilePath Walker Syncer Cli Discovery Spec Examples.
Local Open Scope nat_scope.

(** Whether or not the directories are distinct, the summary has one row
    for each goroutine that is past its append, and the goroutines are
    those of the jobs. *)
Lemma reachable_rows_counted jobs σ :
  reachable jobs σ →
  job_of <$> threads σ = jobs
  ∧ length (summary (mem σ)) = length (omap row_of (threads σ)).
Proof.
  revert σ. apply reachable_ind.
  - split; simpl.
    + rewrite <- list_fmap_compose. apply list_fmap_id.
    + by induction jobs.
  - intros σ σ' Hreach Hstep [Hjobs Hlen].
    pose proof (reachable_records jobs σ Hreach) as Hrec.
    destruct Hstep as [σ i t a m' Hi Hnext Hperf]. simpl.
    split; [by rewrite jobs_advance|].
    destruct (omap_insert row_of _ _ _ (advance t) Hi) as [E1 E2].
    rewrite E2. rewrite E1 in Hlen.
    rewrite (row_of_cases t) in Hlen. rewrite (row_of_cases (advance t)).
    rewrite next_cases in Hnext. simpl.
    destruct (pc t) as [|[|[|[|]]]]; inversion Hnext; subst a;
      simpl in Hperf.
    + by injection Hperf as <-.
    + injection Hperf as <-. simpl in *.
      rewrite !length_app in *. simpl. lia.
    + by injection Hperf as <-.
    + destruct (updateStatus_total (summary (mem σ)) (dir (job_of t))
                  (final_status (job_of t)) Hrec) as (s' & Hs' & Hlen' & _).
      rewrite Hs' in Hperf. injection Hperf as <-. simpl in *.
      rewrite !length_app in *. simpl in *. lia.
Qed.

Lemma rows_past_append (l : list goroutine) :
  length (omap row_of l) = length (filter (λ t, 2 ≤ pc t) l).
Proof.
  induction l as [|t l IH]; [done|].
  change (t :: l) with ([t] ++ l).
  rewrite omap_app, filter_app, !length_app, IH. f_equal.
  simpl. rewrite row_of_cases, filter_cons, filter_nil.
  destruct (pc t) as [|[|[|[|]]]]; case_decide; simpl; lia.
Qed.

(** X10: no append is lost, even when directories repeat: at every moment
    of a run the summary has exactly as many rows as there are goroutines
    past their append, and once all goroutines have returned it has as
    many rows as there were jobs. *)
Theorem rows_counted (jobs : list job) (σ : state) :
  reachable jobs σ →
  length (summary (mem σ))
    = length (filter (λ t, 2 ≤ pc t) (threads σ))
  ∧ (finished σ → length (summary (mem σ)) = length jobs).
Proof.
  intros Hreach.
  destruct (reachable_rows_counted jobs σ Hreach) as [Hjobs Hlen].
  split; [by rewrite Hlen, rows_past_append|].
  intros Hfin. rewrite Hlen, finished_rows by done.
  by rewrite !length_fmap, <- Hjobs, length_fmap.
Qed.

Lemma rows_counted_witness :
  reachable [job_a; job_a] 
    (State (Shared [[str "a"; []; Unknown]; [str "a"; []; Unknown]]
                   [GitRemoteV (str "a"); GitRemoteV (str "a")])
           [Go job_a 2; Go job_a 2])
  ∧ length [[str "a"; []; Unknown]; [str "a"; []; Unknown]] = 2.
Proof.
  assert (reachable [job_a; job_a]
            (State (Shared [[str "a"; []; Unknown]; [str "a"; []; Unknown]]
                           [GitRemoteV (str "a"); GitRemoteV (str "a")])
                   [Go job_a 2; Go job_a 2])) as Hreach.
  { apply (run_schedule_reachable _ [0; 1; 0; 1]). by vm_compute. }
  split; [exact Hreach|].
  exact (proj1 (rows_counted _ _ Hreach)).
Defined.

(** What has happened when [main] has printed a table: the flags and the
    one argument were accepted, the walk of the argument started the
    goroutines, and the table is the summary of a state of their run in
    which all of them have returned. *)
Lemma main_printed (ParseLevel : gostring → bool) (inv : invocation)
      (w : world) (code : nat) (r : report) :
  main ParseLevel inv w = Exit code (Some r) →
  code = 0
  ∧ ∃ root σ,
      args inv = [root]
      ∧ started r = found root (tree_at w root)
      ∧ table r = summary (mem σ)
      ∧ reachable (job_for w <$> started r) σ
      ∧ finished σ.
Proof.
  unfold main.
  destruct (ParseLevel (logLevel inv)); simpl; [|done].
  destruct (dispatched inv) as [|words];
    [|by destruct (bool_decide (words = []))].
  destruct (flag_error inv); [done|].
  destruct (help inv); [done|].
  case_bool_decide as Hargs; simpl; [|done].
  destruct (args inv) as [|root [|]]; try done.
  destruct (run w [root]) as [r'|] eqn:Hrun; [|done].
  intros [= <- <-]. split; [done|].
  unfold run in Hrun.
  assert (Walk visit root (tree_at w root) []
          = Ret (found root (tree_at w root)) None) as Hwalk.
  { unfold Walk. rewrite walk_visit_found. simpl.
    destruct (tree_at w root) as [name|name|name [|] entries]; try done.
    by destruct (bool_decide (name = dotgit)). }
  rewrite Hwalk in Hrun.
  destruct (schedule_completes (job_for w <$> found root (tree_at w root))
              (schedule w)) as (σ & Hσ & Hreach & Hfin).
  destruct (run_schedule _ _) as [σ1|]; [|done]. simpl in *.
  rewrite Hσ in Hrun. injection Hrun as <-. by exists root, σ.
Qed.

Lemma dir_job_for (w : world) (ds : list gostring) :
  dir <$> (job_for w <$> ds) = ds.
Proof.
  rewrite <- list_fmap_compose.
  assert (dir ∘ job_for w <$> ds = id <$> ds) as -> by by apply list_fmap_ext.
  apply list_fmap_id.
Qed.

(** C7: the exit code of [main] is decided by the set-up alone.  A log
    level that does not parse, a flag that does not parse, a number of
    arguments other than one and a completion request without a word each
    end in exit code 1 with nothing walked and nothing printed; help and
    a completion request with words end in 0, also with nothing walked.
    Otherwise, with one argument [dir], [main] exits with 0 in every
    world, whatever the probes and pulls of the repositories return: it
    has walked [dir], its table has one row per goroutine started and,
    when the started directories are distinct, these are in some order
    the rows (directory, probed remote, [Failed] or [Success] by the
    outcome of the pull) of the started directories.  So an exit code
    other than 0 comes from the set-up only, before [run] is called, and
    [main] does not panic. *)
Theorem exit_code_ignores_repositories
        (ParseLevel : gostring → bool) (inv : invocation) (w : world) :
  (ParseLevel (logLevel inv) = false →
     main ParseLevel inv w = Exit 1 None)
  ∧ (ParseLevel (logLevel inv) = true →
     (dispatched inv = Complete [] →
        main ParseLevel inv w = Exit 1 None)
     ∧ (∀ words, dispatched inv = Complete words → words ≠ [] →
          main ParseLevel inv w = Exit 0 None)
     ∧ (dispatched inv = Root →
        (flag_error inv = true → main ParseLevel inv w = Exit 1 None)
        ∧ (flag_error inv = false →
           (help inv = true → main ParseLevel inv w = Exit 0 None)
           ∧ (help inv = false →
              (length (args inv) ≠ 1 →
                 main ParseLevel inv w = Exit 1 None)
              ∧ (∀ dir, args inv = [dir] →
                   ∃ r, main ParseLevel inv w = Exit 0 (Some r)
                        ∧ Walk visit dir (tree_at w dir) []
                          = Ret (started r) None
                        ∧ length (table r) = length (started r)
                        ∧ (NoDup (started r) →
                           table r
                           ≡ₚ final_row <$> (job_for w <$> started r)))))))
  ∧ (∀ code r, main ParseLevel inv w = Exit code r → code ≠ 0 →
       r = None
       ∧ (ParseLevel (logLevel inv) = false
          ∨ dispatched inv = Complete []
          ∨ (dispatched inv = Root
             ∧ (flag_error inv = true ∨ length (args inv) ≠ 1))))
  ∧ main ParseLevel inv w ≠ Panicked.
Proof.
  split; [|split; [|split]].
  - intros Hlevel. unfold main. by rewrite Hlevel.
  - intros Hlevel. unfold main. rewrite Hlevel. simpl.
    split; [by intros ->|]. split.
    { intros words -> Hwords. by rewrite bool_decide_false. }
    intros ->. split; [by intros ->|]. intros ->.
    split; [by intros ->|]. intros ->. split.
    { intros Hargs. by rewrite bool_decide_false. }
    intros root Hargs. rewrite Hargs, bool_decide_true by done. cbn [negb].
    destruct (run_returns w root []) as [r Hrun]. rewrite Hrun.
    exists r. split; [done|].
    assert (main ParseLevel (Invocation (logLevel inv) (debug inv) Root
                               false false [root]) w
            = Exit 0 (Some r)) as Hmain.
    { unfold main. cbn [logLevel dispatched flag_error help args].
      rewrite Hlevel, bool_decide_true by done. cbn [negb].
      by rewrite Hrun. }
    apply main_printed in Hmain
      as (_ & root' & σ & [= <-] & Hstarted & Htable & Hreach & Hfin).
    rewrite Hstarted at 1. split; [apply Walk_visit_found|].
    destruct (reachable_rows_counted _ _ Hreach) as [Hjobs Hlen].
    rewrite Htable. split.
    + rewrite Hlen, finished_rows, Hjobs by done.
      by rewrite !length_fmap.
    + intros Hnodup. rewrite <- (dir_job_for w) in Hnodup.
      destruct (reachable_consistent _ σ Hnodup Hreach) as [_ Hsum].
      by rewrite Hsum, finished_rows, Hjobs.
  - unfold main.
    destruct (ParseLevel (logLevel inv)); simpl;
      [|intros ?? [= <- <-] _; auto].
    destruct (dispatched inv) as [|words]; simpl.
    + destruct (flag_error inv);
        [intros ?? [= <- <-] _; split; [done|]; right; right; auto|].
      destruct (help inv); [by intros ?? [= <- <-]|].
      case_bool_decide as Hargs; simpl.
      * destruct (args inv) as [|root [|]]; try done.
        destruct (run_returns w root []) as [r ->].
        by intros ?? [= <- <-].
      * intros ?? [= <- <-] _. split; [done|]. right. right. auto.
    + case_bool_decide as Hwords; [|by intros ?? [= <- <-]].
      subst words. intros ?? [= <- <-] _. auto.
  - unfold main.
    destruct (ParseLevel (logLevel inv)); simpl; [|done].
    destruct (dispatched inv) as [|words];
      [|by destruct (bool_decide (words = []))].
    destruct (flag_error inv); [done|].
    destruct (help inv); [done|].
    case_bool_decide as Hargs; simpl; [|done].
    destruct (args inv) as [|root [|]]; try done.
    by destruct (run_returns w root []) as [r ->].
Qed.

Lemma exit_code_ignores_repositories_witness :
  (accept_error_level (logLevel invoke_loud) = false
   ∧ main accept_error_level invoke_loud world_ab = Exit 1 None)
  ∧ (accept_error_level (logLevel invoke_two) = true
     ∧ dispatched invoke_two = Root ∧ flag_error invoke_two = false
     ∧ help invoke_two = false ∧ length (args invoke_two) ≠ 1
     ∧ main accept_error_level invoke_two world_ab = Exit 1 None)
  ∧ (accept_error_level (logLevel invoke_dot) = true
     ∧ dispatched invoke_dot = Root ∧ flag_error invoke_dot = false
     ∧ help invoke_dot = false ∧ args invoke_dot = [str "."]
     ∧ git_pull_fails world_ab (str "b") = true
     ∧ ∃ r, main accept_error_level invoke_dot world_ab = Exit 0 (Some r)
            ∧ Walk visit (str ".") (tree_at world_ab (str ".")) []
              = Ret (started r) None
            ∧ length (table r) = length (started r)
            ∧ (NoDup (started r) →
               table r
               ≡ₚ final_row <$> (job_for world_ab <$> started r)))
  ∧ (accept_error_level (logLevel invoke_complete) = true
     ∧ dispatched invoke_complete = Complete [str "x"]
     ∧ main accept_error_level invoke_complete world_ab = Exit 0 None).
Proof.
  split; [|split; [|split]]; cycle 3.
  { repeat (split; [reflexivity|]).
    destruct (exit_code_ignores_repositories accept_error_level
                invoke_complete world_ab) as (_ & Hsetup & _).
    destruct (Hsetup eq_refl) as (_ & Hwords & _).
    by apply (Hwords [str "x"]). }
  - split; [reflexivity|].
    destruct (exit_code_ignores_repositories accept_error_level
                invoke_loud world_ab) as (Hlevel & _).
    apply Hlevel. reflexivity.
  - repeat (split; [by vm_compute|]).
    destruct (exit_code_ignores_repositories accept_error_level
                invoke_two world_ab) as (_ & Hsetup & _).
    destruct (Hsetup eq_refl) as (_ & _ & Hroot).
    destruct (Hroot eq_refl) as (_ & Hflags).
    destruct (Hflags eq_refl) as (_ & Hhelp).
    destruct (Hhelp eq_refl) as (Hcount & _).
    apply Hcount. by vm_compute.
  - repeat (split; [reflexivity|]).
    destruct (exit_code_ignores_repositories accept_error_level
                invoke_dot world_ab) as (_ & Hsetup & _).
    destruct (Hsetup eq_refl) as (_ & _ & Hroot).
    destruct (Hroot eq_refl) as (_ & Hflags).
    destruct (Hflags eq_refl) as (_ & Hhelp).
    destruct (Hhelp eq_refl) as (_ & Hone).
    apply Hone. reflexivity.
Defined.

(** X12: whenever [main] prints its table, the exit code is 0, the
    goroutines that were started are those that the walk of the argument
    discovers, the table has one row per started goroutine, and, when the
    started directories are distinct, its rows are in some order the rows
    (directory, probed remote, outcome of the pull) of the started
    directories. *)
Theorem main_reports_every_repository
        (ParseLevel : gostring → bool) (inv : invocation) (w : world)
        (code : nat) (r : report) :
  main ParseLevel inv w = Exit code (Some r) →
  code = 0
  ∧ (∃ dir, args inv = [dir] ∧ started r = found dir (tree_at w dir))
  ∧ length (table r) = length (started r)
  ∧ (NoDup (started r) →
     table r ≡ₚ final_row <$> (job_for w <$> started r)).
Proof.
  intros (Hcode & root & σ & Hargs & Hstarted & Htable & Hreach & Hfin)
    %main_printed.
  split; [done|]. split; [by exists root|].
  destruct (reachable_rows_counted _ _ Hreach) as [Hjobs Hlen].
  rewrite Htable. split.
  - rewrite Hlen, finished_rows, Hjobs by done.
    by rewrite !length_fmap.
  - intros Hnodup. rewrite <- (dir_job_for w) in Hnodup.
    destruct (reachable_consistent _ σ Hnodup Hreach) as [_ Hsum].
    by rewrite Hsum, finished_rows, Hjobs.
Qed.

Lemma main_reports_every_repository_witness :
  main accept_error_level invoke_dot world_ab
    = Exit 0 (Some (Report [str "a"; str "b"]
                      [ [str "b"; str "https://host/repo.git"; Failed];
                        [str "a"; []; Success] ]))
  ∧ length [ [str "b"; str "https://host/repo.git"; Failed];
             [str "a"; []; Success] ]
    = length [str "a"; str "b"].
Proof.
  assert (main accept_error_level invoke_dot world_ab
          = Exit 0 (Some (Report [str "a"; str "b"]
                            [ [str "b"; str "https://host/repo.git"; Failed];
                              [str "a"; []; Success] ]))) as Hmain
    by by vm_compute.
  split; [exact Hmain|].
  exact (proj1 (proj2 (proj2 (main_reports_every_repository _ _ _ _ _
                                Hmain)))).
Defined.

End TableFacts.

(** ** Clean paths *)

Section PathFacts.
Import GoStrings FilePath Walker Discovery Spec Examples.

Lemma Split_no_separator e sep : sep ∉ e → Split e sep = [e].
Proof.
  induction e as [|c e IH]; [done|].
  intros [Hc He]%not_elem_of_cons. simpl.
  rewrite (proj2 (N.eqb_neq c sep)) by done. by rewrite IH.
Qed.

Lemma Split_app_separator e rest sep :
  sep ∉ e → Split (e ++ sep :: rest) sep = e :: Split rest sep.
Proof.
  induction e as [|c e IH]; simpl.
  - intros _. by rewrite N.eqb_refl.
  - intros [Hc He]%not_elem_of_cons.
    rewrite (proj2 (N.eqb_neq c sep)) by done. by rewrite IH.
Qed.

Lemma Split_join_elems raw :
  raw ≠ [] → Forall (λ e, Separator ∉ e) raw →
  Split (join_elems raw) Separator = raw.
Proof.
  intros Hne Hraw. induction Hraw as [|e raw He Hraw IH]; [done|].
  destruct raw as [|e' raw].
  - by apply Split_no_separator.
  - change (join_elems (e :: e' :: raw))
      with (e ++ Separator :: join_elems (e' :: raw)).
    rewrite Split_app_separator by done. by rewrite IH.
Qed.

Lemma join_elems_snoc raw x :
  raw ≠ [] → join_elems (raw ++ [x]) = join_elems raw ++ Separator :: x.
Proof.
  induction raw as [|e raw IH]; [done|]. intros _.
  destruct raw as [|e' raw]; [done|].
  change (join_elems ((e :: e' :: raw) ++ [x]))
    with (e ++ Separator :: join_elems ((e' :: raw) ++ [x])).
  rewrite IH by done.
  change (join_elems (e :: e' :: raw))
    with (e ++ Separator :: join_elems (e' :: raw)).
  by rewrite <- app_assoc.
Qed.

(** [clean_elems] is a scan from the left. *)
Lemma clean_elems_app rooted out l1 l2 :
  clean_elems rooted out (l1 ++ l2)
    = clean_elems rooted (clean_elems rooted out l1) l2.
Proof.
  revert out. induction l1 as [|e l1 IH]; intros out; [done|].
  simpl. repeat case_decide; try done.
  destruct (last out) as [top|]; [case_decide|destruct rooted]; done.
Qed.

(** Without [..] it keeps the plain pieces. *)
Lemma clean_elems_kept rooted out raw :
  Forall (λ e, e = [] ∨ e = dot ∨ plain e) raw →
  clean_elems rooted out raw = out ++ kept raw.
Proof.
  intros Hraw. revert out.
  induction Hraw as [|e raw He _ IH]; intros out.
  - by rewrite app_nil_r.
  - simpl. unfold kept in *. rewrite filter_cons.
    destruct He as [->|[->|(Hne & Hdot & Hdotdot & _)]].
    + rewrite decide_True by by left.
      rewrite decide_False by (intros [? _]; done). apply IH.
    + rewrite decide_True by by right.
      rewrite decide_False by (intros [_ ?]; done). apply IH.
    + rewrite decide_False by (intros [?|?]; done).
      rewrite decide_False by done. rewrite decide_True by done.
      rewrite IH. by rewrite <- app_assoc.
Qed.

Lemma join_elems_plain_nonempty elems :
  Forall plain elems → join_elems elems = [] → elems = [].
Proof.
  destruct 1 as [|e elems (Hne & _) _]; [done|].
  destruct e as [|c e]; [done|]. by destruct elems.
Qed.

(** [Clean] on a path given by its pieces. *)
Lemma Clean_join_raw raw c rest :
  raw ≠ [] →
  Forall (λ e, Separator ∉ e) raw →
  Forall (λ e, e = [] ∨ e = dot ∨ plain e) raw →
  join_elems raw = c :: rest →
  Clean (join_elems raw) = render (c =? Separator) (kept raw).
Proof.
  intros Hne Hsep Hraw Hpath. unfold Clean. rewrite Hpath.
  rewrite <- Hpath, Split_join_elems by done.
  rewrite clean_elems_kept by done. simpl. unfold render.
  destruct (c =? Separator); [done|].
  assert (Forall plain (kept raw)) as Hkept.
  { unfold kept. apply Forall_forall.
    intros e [[Hnil Hdot] He]%list_elem_of_filter.
    rewrite Forall_forall in Hraw. by destruct (Hraw e He) as [?|[?|?]]. }
  destruct (kept raw) as [|e l] eqn:Hk; [done|].
  destruct (join_elems (e :: l)) as [|c' p] eqn:Hj; [|done].
  by apply join_elems_plain_nonempty in Hj.
Qed.

Lemma plain_pieces elems :
  Forall plain elems →
  Forall (λ e, Separator ∉ e) elems
  ∧ Forall (λ e, e = [] ∨ e = dot ∨ plain e) elems
  ∧ kept elems = elems.
Proof.
  intros Hplain. split; [|split].
  - eapply Forall_impl; [done|]. by intros e (_ & _ & _ & ?).
  - eapply Forall_impl; [done|]. auto.
  - unfold kept. induction Hplain as [|e elems (? & ? & _) _ IH]; [done|].
    rewrite filter_cons_True by done. by f_equal.
Qed.

Lemma raw_of_render rooted elems :
  Forall plain elems →
  render rooted elems = join_elems (raw_of rooted elems)
  ∧ raw_of rooted elems ≠ []
  ∧ Forall (λ e, Separator ∉ e) (raw_of rooted elems)
  ∧ Forall (λ e, e = [] ∨ e = dot ∨ plain e) (raw_of rooted elems)
  ∧ kept (raw_of rooted elems) = elems.
Proof.
  intros Hplain.
  destruct (plain_pieces elems Hplain) as (Hsep & Hharm & Hkept).
  assert (Separator ∉ dot) as Hdot
    by (apply (bool_decide_unpack _); by vm_compute).
  destruct rooted, elems as [|e elems].
  - split; [done|]. split; [done|].
    split; [repeat constructor; apply not_elem_of_nil|].
    split; [repeat constructor; by left|by vm_compute].
  - split; [done|]. split; [done|].
    split; [constructor; [apply not_elem_of_nil|done]|].
    split; [constructor; [by left|done]|].
    unfold kept in *. cbn [raw_of].
    by rewrite filter_cons_False by (intros [? _]; done).
  - split; [done|]. split; [done|].
    split; [by repeat constructor|].
    split; [repeat constructor; right; by left|by vm_compute].
  - done.
Qed.

Lemma render_head rooted elems :
  Forall plain elems →
  ∃ c rest, render rooted elems = c :: rest ∧ (c =? Separator) = rooted.
Proof.
  intros Hplain. destruct rooted.
  - by exists Separator, (join_elems elems).
  - destruct Hplain as [|e elems (Hne & _ & _ & Hsep) _].
    + by eexists _, _.
    + destruct e as [|c e]; [done|].
      apply not_elem_of_cons in Hsep as [Hc _].
      exists c. destruct elems; eexists; (split; [done|]);
        by apply N.eqb_neq.
Qed.

Lemma kept_snoc_plain raw name :
  plain name → kept (raw ++ [name]) = kept raw ++ [name].
Proof.
  intros (? & ? & _). unfold kept.
  by rewrite filter_app, (filter_cons_True _ name) by done.
Qed.

Lemma kept_snoc_empty raw : kept (raw ++ [[]]) = kept raw.
Proof.
  unfold kept. rewrite filter_app.
  rewrite (filter_cons_False _ []) by (intros [? _]; done).
  by rewrite filter_nil, app_nil_r.
Qed.

(** Joining a plain element to a clean path appends the element. *)
Lemma Join_render rooted elems name :
  Forall plain elems → plain name →
  Join (render rooted elems) name = render rooted (elems ++ [name]).
Proof.
  intros Hplain Hname.
  destruct (raw_of_render rooted elems Hplain)
    as (Hr & Hne & Hsep & Hharm & Hkept).
  destruct (render_head rooted elems Hplain) as (c & rest & Hhead & Hc).
  unfold Join. rewrite Hhead. rewrite <- Hhead, Hr.
  rewrite <- join_elems_snoc by done.
  rewrite (Clean_join_raw _ c (rest ++ Separator :: name)).
  - by rewrite Hc, kept_snoc_plain, Hkept.
  - by destruct (raw_of rooted elems).
  - apply Forall_app. split; [done|]. apply Forall_singleton, Hname.
  - apply Forall_app. split; [done|]. apply Forall_singleton. auto.
  - by rewrite join_elems_snoc, <- Hr, Hhead.
Qed.

Lemma through_last_separator_none name :
  Separator ∉ name → through_last_separator name = [].
Proof.
  induction name as [|c name IH]; [done|].
  intros [Hc Hname]%not_elem_of_cons. simpl.
  rewrite (proj2 (N.eqb_neq c Separator)) by done. by rewrite IH.
Qed.

Lemma through_last_separator_app a name :
  Separator ∉ name →
  through_last_separator (a ++ Separator :: name) = a ++ [Separator].
Proof.
  intros Hname. induction a as [|c a IH]; simpl.
  - rewrite through_last_separator_none by done. by rewrite ?N.eqb_refl.
  - rewrite IH. destruct (c =? Separator); [done|]. by destruct a.
Qed.

(** The directory of a clean path with a plain last element is the path
    without that element. *)
Lemma Dir_render rooted elems name :
  Forall plain elems → plain name →
  Dir (render rooted (elems ++ [name])) = render rooted elems.
Proof.
  intros Hplain Hname.
  assert (Separator ∉ name) as Hsepn by apply Hname.
  unfold Dir. destruct elems as [|e elems].
  - destruct rooted.
    + change (render true ([] ++ [name])) with ([] ++ Separator :: name).
      by rewrite through_last_separator_app.
    + change (render false ([] ++ [name])) with name.
      by rewrite through_last_separator_none.
  - destruct (raw_of_render rooted (e :: elems) Hplain)
      as (Hr & Hne & Hsep & Hharm & Hkept).
    destruct (render_head rooted (e :: elems) Hplain)
      as (c & rest & Hhead & Hc).
    assert (render rooted ((e :: elems) ++ [name])
            = render rooted (e :: elems) ++ Separator :: name) as ->.
    { destruct rooted.
      - unfold render. by rewrite (join_elems_snoc (e :: elems)).
      - change (render false ((e :: elems) ++ [name]))
          with (join_elems ((e :: elems) ++ [name])).
        change (render false (e :: elems)) with (join_elems (e :: elems)).
        by rewrite join_elems_snoc. }
    rewrite through_last_separator_app by done.
    rewrite Hr, <- join_elems_snoc by done.
    rewrite (Clean_join_raw _ c (rest ++ [Separator])).
    + by rewrite Hc, kept_snoc_empty, Hkept.
    + by destruct (raw_of rooted (e :: elems)).
    + apply Forall_app. split; [done|].
      apply Forall_singleton, not_elem_of_nil.
    + apply Forall_app. split; [done|]. apply Forall_singleton. by left.
    + by rewrite join_elems_snoc, <- Hr, Hhead.
Qed.

Lemma plain_dotgit : plain dotgit.
Proof. unfold plain. apply (bool_decide_unpack _). by vm_compute. Qed.

(** X13: on a clean path, rooted or relative, [.] and [/] included,
    joining a plain element appends it after a separator, and [Dir] takes
    it off again: the directory that [visit] computes for the [.git]
    entry that [Walk] found in a directory is that directory. *)
Theorem Dir_Join_roundtrip (rooted : bool) (elems : list gostring)
        (name : gostring) :
  Forall plain elems → plain name →
  Join (render rooted elems) name = render rooted (elems ++ [name])
  ∧ Dir (Join (render rooted elems) name) = render rooted elems
  ∧ Dir (Join (render rooted elems) dotgit) = render rooted elems.
Proof.
  intros Hplain Hname. split; [by apply Join_render|]. split.
  - rewrite Join_render by done. by apply Dir_render.
  - rewrite Join_render by (done || apply plain_dotgit).
    apply Dir_render; [done|apply plain_dotgit].
Qed.

Lemma Dir_Join_roundtrip_witness :
  Forall plain [str "src"; str "app"]
  ∧ plain (str "vendor")
  ∧ Dir (Join (str "/src/app") dotgit) = str "/src/app".
Proof.
  assert (plain (str "src") ∧ plain (str "app") ∧ plain (str "vendor"))
    as (H1 & H2 & H3).
  { unfold plain. apply (bool_decide_unpack _). by vm_compute. }
  assert (Forall plain [str "src"; str "app"]) as Hplain
    by (apply Forall_cons_2; [done|by apply Forall_singleton]).
  split; [exact Hplain|]. split; [exact H3|].
  exact (proj2 (proj2 (Dir_Join_roundtrip true _ _ Hplain H3))).
Defined.

End PathFacts.

(** ** Discovery below a clean path *)

Section DistinctFacts.
Import GoStrings FilePath Walker Discovery Syncer Cli Spec Examples.

Lemma wellformed_plain n : wellformed n → plain (node_name n).
Proof. destruct n; simpl; tauto. Qed.

Lemma wellformed_Directory name unreadable entries :
  wellformed (Directory name unreadable entries)
  ↔ plain name ∧ NoDup (node_name <$> entries) ∧ Forall wellformed entries.
Proof.
  simpl.
  assert (∀ es, (fix all (es : list node) : Prop :=
                   match es with
                   | [] => True
                   | e :: es' => wellformed e ∧ all es'
                   end) es ↔ Forall wellformed es) as Hall.
  { induction es as [|e es IH]; [by split; [constructor|]|].
    rewrite Forall_cons, IH. done. }
  rewrite Hall. done.
Qed.

(** Below a clean path the walker's paths are the renderings of the
    element lists that [found_under] collects. *)
Lemma found_render rooted e : ∀ parent,
  Forall plain parent → wellformed e →
  found (render rooted (parent ++ [node_name e])) e
  = render rooted <$> found_under parent e.
Proof.
  induction e as [name|name|name unreadable entries IH]
    using node_induction; intros parent Hparent Hwf; [done|done|].
  apply wellformed_Directory in Hwf as (Hname & _ & Hentries).
  cbn [found found_under node_name]. destruct unreadable; [done|].
  case_bool_decide as Hgit.
  { subst name. by rewrite Dir_render. }
  assert (Forall plain (parent ++ [name])) as Hhere.
  { apply Forall_app. split; [done|]. by apply Forall_singleton. }
  induction IH as [|e entries He _ IHes]; [done|].
  apply Forall_cons in Hentries as [Hwf Hentries].
  cbn [flat_map]. rewrite fmap_app, <- IHes by done. f_equal.
  rewrite Join_render by auto using wellformed_plain.
  by apply He.
Qed.

Lemma found_entries_render rooted elems entries :
  Forall plain elems → Forall wellformed entries →
  flat_map (λ e, found (Join (render rooted elems) (node_name e)) e) entries
  = render rooted <$> flat_map (found_under elems) entries.
Proof.
  intros Helems Hentries.
  induction Hentries as [|e entries Hwf _ IH]; [done|].
  cbn [flat_map]. rewrite fmap_app, <- IH. f_equal.
  rewrite Join_render by auto using wellformed_plain.
  by apply found_render.
Qed.

(** An element list collected below an entry is the parent itself, when
    the entry is a [.git] directory, and goes through the entry's name
    otherwise. *)
Lemma found_under_shape e : ∀ parent x,
  x ∈ found_under parent e →
  (x = parent ∧ node_name e = dotgit)
  ∨ (∃ k, x = parent ++ node_name e :: k ∧ node_name e ≠ dotgit).
Proof.
  induction e as [name|name|name unreadable entries IH]
    using node_induction; intros parent x;
    [by intros ?%elem_of_nil|by intros ?%elem_of_nil|].
  cbn [found_under node_name]. destruct unreadable;
    [by intros ?%elem_of_nil|].
  case_bool_decide as Hgit.
  { intros ->%list_elem_of_singleton. by left. }
  rewrite list_elem_of_In, in_flat_map.
  intros (e & He%list_elem_of_In & Hx%list_elem_of_In). right.
  rewrite Forall_forall in IH.
  destruct (IH e He _ _ Hx) as [[-> _]|(k & -> & _)].
  - by exists [].
  - exists (node_name e :: k). by rewrite <- app_assoc.
Qed.

Lemma found_under_plain e : ∀ parent x,
  Forall plain parent → wellformed e →
  x ∈ found_under parent e → Forall plain x.
Proof.
  induction e as [name|name|name unreadable entries IH]
    using node_induction; intros parent x Hparent Hwf;
    [by intros ?%elem_of_nil|by intros ?%elem_of_nil|].
  apply wellformed_Directory in Hwf as (Hname & _ & Hentries).
  cbn [found_under]. destruct unreadable; [by intros ?%elem_of_nil|].
  case_bool_decide as Hgit.
  { by intros ->%list_elem_of_singleton. }
  rewrite list_elem_of_In, in_flat_map.
  intros (e & He%list_elem_of_In & Hx%list_elem_of_In).
  rewrite Forall_forall in IH, Hentries.
  apply (IH e He (parent ++ [name]) x); [|by apply Hentries|done].
  apply Forall_app. split; [done|]. by apply Forall_singleton.
Qed.

(** Entries with different names collect different element lists. *)
Lemma found_under_apart parent e1 e2 x :
  node_name e1 ≠ node_name e2 →
  x ∈ found_under parent e1 → x ∈ found_under parent e2 → False.
Proof.
  intros Hnames H1 H2.
  apply found_under_shape in H1 as [[-> Hn1]|(k1 & -> & Hn1)];
    apply found_under_shape in H2 as [[Hx Hn2]|(k2 & Hx & Hn2)].
  - congruence.
  - apply (f_equal length) in Hx. rewrite length_app in Hx.
    simpl in Hx. lia.
  - apply (f_equal length) in Hx. rewrite length_app in Hx.
    simpl in Hx. lia.
  - apply app_inv_head in Hx. congruence.
Qed.

Lemma found_under_entries_NoDup parent entries :
  NoDup (node_name <$> entries) →
  Forall (λ e, NoDup (found_under parent e)) entries →
  NoDup (flat_map (found_under parent) entries).
Proof.
  intros Hnames Hall.
  induction Hall as [|e entries He _ IH]; [constructor|].
  rewrite fmap_cons in Hnames. apply NoDup_cons in Hnames as [Hfresh Hnames].
  cbn [flat_map]. apply NoDup_app. split; [done|]. split; [|by apply IH].
  intros x Hx. rewrite list_elem_of_In, in_flat_map.
  intros (e' & He'%list_elem_of_In & Hx'%list_elem_of_In).
  apply (found_under_apart parent e e' x); [|done|done].
  intros Heq. apply Hfresh. rewrite Heq. by apply list_elem_of_fmap_2.
Qed.

Lemma found_under_NoDup e : ∀ parent,
  wellformed e → NoDup (found_under parent e).
Proof.
  induction e as [name|name|name unreadable entries IH]
    using node_induction; intros parent Hwf;
    [constructor|constructor|].
  apply wellformed_Directory in Hwf as (_ & Hnames & Hentries).
  cbn [found_under]. destruct unreadable; [constructor|].
  case_bool_decide; [apply NoDup_singleton|].
  apply found_under_entries_NoDup; [done|].
  rewrite Forall_forall in IH, Hentries. apply Forall_forall.
  intros e He. by apply IH, Hentries.
Qed.

(** A clean path determines its elements. *)
Lemma render_inj rooted a b :
  Forall plain a → Forall plain b →
  render rooted a = render rooted b → a = b.
Proof.
  intros Ha Hb Heq.
  destruct (raw_of_render rooted a Ha) as (Hra & Hnea & Hsepa & _ & Hka).
  destruct (raw_of_render rooted b Hb) as (Hrb & Hneb & Hsepb & _ & Hkb).
  rewrite <- Hka, <- Hkb.
  rewrite <- (Split_join_elems (raw_of rooted a)) by done.
  rewrite <- (Split_join_elems (raw_of rooted b)) by done.
  by rewrite <- Hra, <- Hrb, Heq.
Qed.

(** The directories that the walk of a well-formed tree at a clean path
    starts are distinct. *)
Lemma found_NoDup rooted elems n :
  Forall plain elems → wellformed_root n →
  NoDup (found (render rooted elems) n).
Proof.
  intros Helems Hroot.
  destruct n as [name|name|name unreadable entries];
    [constructor|constructor|].
  destruct Hroot as [Hnames Hentries].
  cbn [found]. destruct unreadable; [constructor|].
  case_bool_decide; [apply NoDup_singleton|].
  rewrite found_entries_render by done.
  apply NoDup_fmap_2_strong.
  - intros a b Ha Hb. rewrite list_elem_of_In, in_flat_map in Ha, Hb.
    destruct Ha as (ea & Hea%list_elem_of_In & Ha%list_elem_of_In).
    destruct Hb as (eb & Heb%list_elem_of_In & Hb%list_elem_of_In).
    rewrite Forall_forall in Hentries.
    apply render_inj.
    + eapply found_under_plain; [done| |done]. by apply Hentries.
    + eapply found_under_plain; [done| |done]. by apply Hentries.
  - apply found_under_entries_NoDup; [done|].
    eapply Forall_impl; [done|]. intros e He. by apply found_under_NoDup.
Qed.

(** X14: walking a tree whose entries have plain names, distinct within
    each directory, from a clean path starts no directory twice. *)
Theorem Walk_visit_starts_distinct
        (rooted : bool) (elems : list gostring) (n : node)
        (started : list gostring) :
  Forall plain elems → wellformed_root n →
  Walk visit (render rooted elems) n [] = Ret started None →
  NoDup started.
Proof.
  intros Helems Hroot.
  assert (Walk visit (render rooted elems) n []
          = Ret (found (render rooted elems) n) None) as ->.
  { unfold Walk. rewrite walk_visit_found. simpl.
    destruct n as [name|name|name [|] entries]; try done.
    by destruct (bool_decide (name = dotgit)). }
  intros [= <-]. by apply found_NoDup.
Qed.

Lemma plain_str_a : plain (str "a").
Proof.
  unfold plain. repeat split; try done.
  apply (bool_decide_unpack _). by vm_compute.
Qed.

Lemma plain_str_b : plain (str "b").
Proof.
  unfold plain. repeat split; try done.
  apply (bool_decide_unpack _). by vm_compute.
Qed.

Lemma wellformed_root_two_repositories : wellformed_root two_repositories.
Proof.
  split.
  - apply (bool_decide_unpack _). by vm_compute.
  - apply Forall_cons_2; [|apply Forall_singleton];
      apply wellformed_Directory.
    + split; [apply plain_str_a|]. split; [apply NoDup_singleton|].
      apply Forall_singleton, wellformed_Directory.
      split; [apply plain_dotgit|]. split; constructor.
    + split; [apply plain_str_b|]. split; [apply NoDup_singleton|].
      apply Forall_singleton, wellformed_Directory.
      split; [apply plain_dotgit|]. split; constructor.
Qed.

Lemma Walk_visit_starts_distinct_witness :
  Walk visit (str ".") two_repositories [] = Ret [str "a"; str "b"] None
  ∧ NoDup [str "a"; str "b"].
Proof.
  assert (Walk visit (render false []) two_repositories []
          = Ret [str "a"; str "b"] None) as Hwalk by by vm_compute.
  split; [done|].
  exact (Walk_visit_starts_distinct false [] two_repositories _
           (Forall_nil_2 _) wellformed_root_two_repositories Hwalk).
Defined.

(** X15: when [main] is given a clean path and the tree there has plain
    entry names, distinct within each directory, the table it prints has
    exactly one row for every discovered directory: the started directories
    are distinct, the rows are in some order the rows (directory, probed
    remote, outcome of the pull) of these directories, and no two rows name
    the same directory. *)
Theorem main_one_row_per_repository
        (ParseLevel : gostring → bool) (inv : invocation) (w : world)
        (rooted : bool) (elems : list gostring) (code : nat) (r : report) :
  args inv = [render rooted elems] → Forall plain elems →
  wellformed_root (tree_at w (render rooted elems)) →
  main ParseLevel inv w = Exit code (Some r) →
  NoDup (started r)
  ∧ table r ≡ₚ final_row <$> (job_for w <$> started r)
  ∧ omap path_of (table r) ≡ₚ started r.
Proof.
  intros Hargs Helems Hroot
    (Hcode & root & σ & Hargs' & Hstarted & Htable & Hreach & Hfin)
    %main_printed.
  rewrite Hargs in Hargs'. injection Hargs' as <-.
  assert (NoDup (started r)) as Hnodup
    by (rewrite Hstarted; by apply found_NoDup).
  split; [done|].
  destruct (reachable_rows_counted _ _ Hreach) as [Hjobs _].
  pose proof Hnodup as Hdirs. rewrite <- (dir_job_for w) in Hdirs.
  destruct (reachable_consistent _ σ Hdirs Hreach) as [_ Hsum].
  assert (table r ≡ₚ final_row <$> (job_for w <$> started r)) as Hrows
    by by rewrite Htable, Hsum, finished_rows, Hjobs.
  split; [done|]. rewrite Hrows.
  clear. induction (started r) as [|d ds IH]; [done|].
  rewrite !fmap_cons.
  change (omap path_of (final_row (job_for w d)
                          :: (final_row <$> (job_for w <$> ds))))
    with (d :: omap path_of (final_row <$> (job_for w <$> ds))).
  by rewrite IH.
Qed.

Lemma main_one_row_per_repository_witness :
  ∃ r, main accept_error_level invoke_dot world_ab = Exit 0 (Some r)
       ∧ NoDup (started r)
       ∧ table r ≡ₚ final_row <$> (job_for world_ab <$> started r)
       ∧ omap path_of (table r) ≡ₚ started r.
Proof.
  eexists. split; [by vm_compute|].
  eapply (main_one_row_per_repository accept_error_level invoke_dot
            world_ab false [] 0%nat).
  - done.
  - constructor.
  - apply wellformed_root_two_repositories.
  - by vm_compute.
Defined.

(** The element lists collected below an entry, by position in the tree:
    the parent for a readable [.git] directory, and otherwise the chains
    through the entry that lead to a directory holding one. *)
Lemma found_under_leads e : ∀ parent x,
  x ∈ found_under parent e
  ↔ (∃ sub, e = Directory dotgit false sub ∧ x = parent)
    ∨ (∃ chain m, leads e chain m ∧ holds_repository m
                  ∧ x = parent ++ node_name e :: chain).
Proof.
  induction e as [name|name|name unreadable entries IH]
    using node_induction; intros parent x.
  - split; [by intros ?%elem_of_nil|].
    intros [(sub & [=] & _)|(chain & m & Hleads & Hm & _)].
    inversion Hleads; subst. by destruct Hm as (? & ? & ? & [=] & _).
  - split; [by intros ?%elem_of_nil|].
    intros [(sub & [=] & _)|(chain & m & Hleads & Hm & _)].
    inversion Hleads; subst. by destruct Hm as (? & ? & ? & [=] & _).
  - cbn [found_under node_name]. destruct unreadable.
    { split; [by intros ?%elem_of_nil|].
      intros [(sub & [=] & _)|(chain & m & Hleads & Hm & _)].
      inversion Hleads; subst. by destruct Hm as (? & ? & ? & [=] & _). }
    case_bool_decide as Hgit.
    { subst name. rewrite list_elem_of_singleton. split.
      - intros ->. left. by eexists.
      - intros [(sub & _ & ->)|(chain & m & Hleads & Hm & _)]; [done|].
        inversion Hleads; subst; [|done].
        by destruct Hm as (? & ? & ? & [= <- <-] & ? & _). }
    rewrite Forall_forall in IH.
    rewrite list_elem_of_In, in_flat_map. split.
    + intros (e & He%list_elem_of_In & Hx%list_elem_of_In). right.
      apply (IH e He) in Hx
        as [(sub & -> & ->)|(chain & m & Hleads & Hm & ->)].
      * exists [], (Directory name false entries).
        split; [constructor|]. split; [by eexists _, _, _|done].
      * exists (node_name e :: chain), m.
        split; [by constructor|]. split; [done|].
        by rewrite <- app_assoc.
    + intros [(sub & [= -> _] & _)|(chain & m & Hleads & Hm & ->)];
        [done|].
      inversion Hleads as [|? ? e chain' ? _ He Hleads']; subst.
      * destruct Hm as (? & ? & sub & [= <- <-] & _ & Hsub).
        exists (Directory dotgit false sub).
        split; apply list_elem_of_In; [done|].
        apply (IH _ Hsub). left. by eexists.
      * exists e. split; apply list_elem_of_In; [done|].
        apply (IH _ He). right. exists chain', m.
        split; [done|]. split; [done|]. by rewrite <- app_assoc.
Qed.

(** X2: walking a tree whose entries have plain names, distinct within
    each directory, and whose root is not itself named [.git], from a
    clean path: a directory is started exactly when it is the path of a
    directory that holds a readable [.git] directory and that the walk
    reaches from the root through readable directories, none of them named
    [.git].  The path is the root path followed by the names on the
    way. *)
Theorem Walk_visit_discovers
        (rooted : bool) (elems : list gostring) (n : node)
        (started : spawned) (d : gostring) :
  Forall plain elems → wellformed_root n → node_name n ≠ dotgit →
  Walk visit (render rooted elems) n [] = Ret started None →
  d ∈ started
  ↔ ∃ chain m, leads n chain m ∧ holds_repository m
               ∧ d = render rooted (elems ++ chain).
Proof.
  intros Helems Hroot Hname. rewrite Walk_visit_found. intros [= <-].
  destruct n as [name|name|name unreadable entries].
  - split; [by intros ?%elem_of_nil|].
    intros (chain & m & Hleads & Hm & _).
    inversion Hleads; subst. by destruct Hm as (? & ? & ? & [=] & _).
  - split; [by intros ?%elem_of_nil|].
    intros (chain & m & Hleads & Hm & _).
    inversion Hleads; subst. by destruct Hm as (? & ? & ? & [=] & _).
  - destruct Hroot as [_ Hentries]. cbn [found node_name] in *.
    destruct unreadable.
    { split; [by intros ?%elem_of_nil|].
      intros (chain & m & Hleads & Hm & _).
      inversion Hleads; subst. by destruct Hm as (? & ? & ? & [=] & _). }
    rewrite bool_decide_false by done.
    rewrite found_entries_render by done.
    rewrite list_elem_of_fmap. split.
    + intros (x & -> & Hx). apply list_elem_of_In, in_flat_map in Hx
        as (e & He%list_elem_of_In & Hx%list_elem_of_In).
      apply found_under_leads in Hx
        as [(sub & -> & ->)|(chain & m & Hleads & Hm & ->)].
      * exists [], (Directory name false entries).
        split; [constructor|]. split; [by eexists _, _, _|].
        by rewrite app_nil_r.
      * exists (node_name e :: chain), m.
        split; [by constructor|done].
    + intros (chain & m & Hleads & Hm & ->).
      inversion Hleads as [|? ? e chain' ? _ He Hleads']; subst.
      * destruct Hm as (? & ? & sub & [= <- <-] & _ & Hsub).
        exists elems. split; [by rewrite app_nil_r|].
        apply list_elem_of_In, in_flat_map.
        exists (Directory dotgit false sub).
        split; apply list_elem_of_In; [done|].
        apply found_under_leads. left. by eexists.
      * eexists. split; [done|].
        apply list_elem_of_In, in_flat_map.
        exists e. split; apply list_elem_of_In; [done|].
        apply found_under_leads. right. by exists chain', m.
Qed.

Lemma wellformed_root_nested_tree : wellformed_root nested_tree.
Proof.
  assert (∀ s, bool_decide (s ≠ [] ∧ s ≠ dot ∧ s ≠ dotdot ∧ Separator ∉ s)
               = true → plain s) as Hplain
    by (intros s Hs; exact (bool_decide_eq_true_1 _ Hs)).
  split.
  - apply (bool_decide_unpack _). by vm_compute.
  - repeat first
      [ apply Forall_nil_2
      | apply Forall_cons_2
      | apply wellformed_Directory; split; [|split]
      | apply NoDup_nil_2
      | apply NoDup_singleton
      | apply plain_dotgit
      | by (apply Hplain; vm_compute)
      | by (split; [apply Hplain; vm_compute|]) ].
Qed.

Lemma Walk_visit_discovers_witness :
  Walk visit (str "R") nested_tree [] = Ret [str "R"; str "R/sub"] None
  ∧ ∃ chain m, leads nested_tree chain m ∧ holds_repository m
               ∧ str "R/sub" = render false ([str "R"] ++ chain).
Proof.
  assert (plain (str "R")) as HR.
  { unfold plain. repeat split; try done.
    apply (bool_decide_unpack _). by vm_compute. }
  assert (Walk visit (render false [str "R"]) nested_tree []
          = Ret [str "R"; str "R/sub"] None) as Hwalk by by vm_compute.
  split; [exact Hwalk|].
  apply (Walk_visit_discovers false [str "R"] nested_tree
           [str "R"; str "R/sub"] (str "R/sub")
           (proj2 (Forall_singleton _ _) HR) wellformed_root_nested_tree).
  - by vm_compute.
  - exact Hwalk.
  - right. left.
Defined.

End DistinctFacts.
